(** * QuicKey: tab recency tracking and the tab jump list

    A shallow embedding of the two classes of the background module that
    registers the [tabJumpList] singleton: [TabRecency], which associates a
    logical timestamp with every tab id, and [TabJumpList], the back/forward
    history built from the recency ranking.

    Conventions of the embedding.
    - Tab ids, logical timestamps and wall-clock instants (milliseconds, the
      value of a JavaScript [Date]) are integers of [Z].
    - A JavaScript value that is either a number or [undefined] (an array
      read that may be out of range) is an [option Z]; a field that is either
      a value or [null] is an [option] as well.
    - The [cache] object is a finite map from tab ids to timestamps, the
      [deletedTabs] set a finite set.
    - The methods mutate [this]; here they take the object and return the new
      one.  [register] reads the clock with [new Date()]; the instant read is
      an argument.  The calls made to the browser are returned as a list.
    - The [console.log] lines of the jump commands are not modelled.

    The development also covers the [onReplaced] listener of the tracker,
    the string helpers of the popup's shortcut module ([joinKeys],
    [findShortcut], [createShiftedShortcut]) and the default data of the
    storage. *)

From stdpp Require Import gmap list sorting strings.
From Stdlib Require Import ZArith Lia Ascii.

Local Open Scope Z_scope.

(** [const TIME_DELTA = 250; // Milliseconds.] *)
Definition TIME_DELTA : Z := 250.

(** ** Array reads and [Array.prototype.sort] *)

(** [arr[i]]: [undefined] (here [None]) outside [0 .. arr.length - 1]. *)
Definition js_index (arr : list Z) (i : Z) : option Z :=
  if decide (0 ≤ i) then arr !! Z.to_nat i else None.

(** [arr.sort(cmp)].  A negative result of the comparator puts its first
    argument first, a positive one its second, and elements that compare
    equal keep their order (the sort is stable); for a consistent comparator
    this determines the result, which the insertion sort below computes. *)
Fixpoint js_sort_insert (cmp : Z → Z → Z) (x : Z) (l : list Z) : list Z :=
  match l with
  | [] => [x]
  | y :: l' => if decide (cmp x y ≤ 0) then x :: y :: l'
               else y :: js_sort_insert cmp x l'
  end.

Definition js_sort (cmp : Z → Z → Z) (l : list Z) : list Z :=
  foldr (js_sort_insert cmp) [] l.

(** [Object.keys(obj)] for an object whose keys are tab ids: integer keys
    are enumerated in ascending numeric order (the ids the browser hands out
    are non-negative integers).  The order matters to the sort only for
    keys that compare equal; the timestamps of the cache are pairwise
    distinct in every state the singleton reaches ([inv_distinct] below). *)
Definition object_keys (obj : gmap Z Z) : list Z :=
  merge_sort Z.le (map_to_list obj).*1.

(** ** [class TabJumpList] *)

Module TabJumpList.

Record t : Type := mk {
  tabs : list Z;
  activeIdx : Z;
  deletedTabs : gset Z
}.

(** [constructor(tabs)] *)
Definition new (tabs0 : list Z) : t :=
  {| tabs := tabs0;
     activeIdx := Z.of_nat (length tabs0) - 1;
     deletedTabs := ∅ |}.

(** [this.tabs[this.activeIdx]] *)
Definition activeTab (jl : t) : option Z := js_index (tabs jl) (activeIdx jl).

(** [isCoherent(currentTabId)] *)
Definition isCoherent (jl : t) (currentTabId : Z) : bool :=
  bool_decide (activeTab jl = Some currentTabId).

(** [deregister(tabId)]: the boolean tells whether the jump list is
    invalidated. *)
Definition deregister (tabId : Z) (jl : t) : bool * t :=
  if bool_decide (activeTab jl = Some tabId) then (true, jl)
  else (false, {| tabs := tabs jl;
                  activeIdx := activeIdx jl;
                  deletedTabs := {[ tabId ]} ∪ deletedTabs jl |}).

(** [this.deletedTabs.has(candidateId)]; the set holds numbers only, so it
    never has [undefined]. *)
Definition deleted (jl : t) (candidateId : option Z) : bool :=
  match candidateId with
  | Some id => bool_decide (id ∈ deletedTabs jl)
  | None => false
  end.

(** The loop of [getJumpBackTabId], [for (let i = this.activeIdx - 1;
    i >= 0; i--)], with [n] the number of indices left to visit, so that
    the index visited first is [n - 1].  With [need = 1] the loop stops at
    the first candidate that is not deleted.  The result is
    [candidateIdx]. *)
Fixpoint scanBack (jl : t) (n : nat) : Z :=
  match n with
  | O => -1
  | S i => if deleted jl (js_index (tabs jl) (Z.of_nat i))
           then scanBack jl i
           else Z.of_nat i
  end.

(** [getJumpBackTabId()] *)
Definition getJumpBackTabId (jl : t) : option Z * t :=
  let candidateIdx := scanBack jl (Z.to_nat (activeIdx jl)) in
  if decide (candidateIdx = -1) then (Some (-1), jl)
  else (js_index (tabs jl) candidateIdx,
        {| tabs := tabs jl;
           activeIdx := candidateIdx;
           deletedTabs := deletedTabs jl |}).

(** The loop of [getJumpForwardTabId], [for (let i = this.activeIdx + 1;
    i < this.tabs.length; i++)], from index [i] with [fuel] indices left
    before [this.tabs.length]. *)
Fixpoint scanForward (jl : t) (fuel : nat) (i : Z) : Z :=
  match fuel with
  | O => -1
  | S fuel' => if deleted jl (js_index (tabs jl) i)
               then scanForward jl fuel' (i + 1)
               else i
  end.

(** [getJumpForwardTabId()] *)
Definition getJumpForwardTabId (jl : t) : option Z * t :=
  let start := activeIdx jl + 1 in
  let candidateIdx :=
    scanForward jl (Z.to_nat (Z.of_nat (length (tabs jl)) - start)) start in
  if decide (candidateIdx = -1) then (Some (-1), jl)
  else (js_index (tabs jl) candidateIdx,
        {| tabs := tabs jl;
           activeIdx := candidateIdx;
           deletedTabs := deletedTabs jl |}).

End TabJumpList.

(** ** [class TabRecency] *)

(** A request sent to the browser: [chrome.tabs.get(tabId, callback)], whose
    callback focuses the window of the tab and activates the tab. *)
Inductive chrome_call : Type :=
  | ChromeTabsGet (tabId : option Z).

Module TabRecency.

Record t : Type := mk {
  timestamp : Z;
  current : Z;
  cache : gmap Z Z;
  lastVisited : option Z;
  lastVisitedTime : option Z;
  jumpList : option TabJumpList.t
}.

(** [constructor()], without the listeners it installs. *)
Definition new : t :=
  {| timestamp := 1;
     current := -1;
     cache := ∅;
     lastVisited := None;
     lastVisitedTime := None;
     jumpList := None |}.

(** [selectSpecificTab(tabId)] *)
Definition selectSpecificTab (tabId : option Z) : list chrome_call :=
  [ChromeTabsGet tabId].

(** [this.cache[k]] for a key of the object. *)
Definition cacheAt (s : t) (k : Z) : Z := default 0 (cache s !! k).

(** [getTabsByRecency()]: the keys sorted with
    [(a,b) => this.cache[b] - this.cache[a]]. *)
Definition getTabsByRecency (s : t) : list Z :=
  js_sort (λ a b, cacheAt s b - cacheAt s a) (object_keys (cache s)).

(** The array that [jumpBackTab] hands to [new TabJumpList]: the reversed
    ranking, with [this.current] pushed when the array is not empty and
    its last element differs from it. *)
Definition jumpBackTabs (s : t) : list Z :=
  let tabs := reverse (getTabsByRecency s) in
  if decide (0 < Z.of_nat (length tabs)
             ∧ js_index tabs (Z.of_nat (length tabs) - 1) ≠ Some (current s))
  then tabs ++ [current s]
  else tabs.

(** The jump list [jumpBackTab] steps: the live one, or a new one. *)
Definition jumpBackList (s : t) : TabJumpList.t :=
  match jumpList s with
  | Some jl => jl
  | None => TabJumpList.new (jumpBackTabs s)
  end.

(** [jumpBackTab()].  The statement
    [backTabId === -1 ? this.current : backTabId;] between the step and
    the selection computes a value and drops it. *)
Definition jumpBackTab (s : t) : t * list chrome_call :=
  let '(backTabId, jl) := TabJumpList.getJumpBackTabId (jumpBackList s) in
  ({| timestamp := timestamp s;
      current := current s;
      cache := cache s;
      lastVisited := lastVisited s;
      lastVisitedTime := lastVisitedTime s;
      jumpList := Some jl |},
   selectSpecificTab backTabId).

(** [jumpForwardTab()]: [forwardTabId] keeps its initial [-1] when there
    is no jump list. *)
Definition jumpForwardTab (s : t) : t * list chrome_call :=
  match jumpList s with
  | Some jl0 =>
      let '(forwardTabId, jl) := TabJumpList.getJumpForwardTabId jl0 in
      ({| timestamp := timestamp s;
          current := current s;
          cache := cache s;
          lastVisited := lastVisited s;
          lastVisitedTime := lastVisitedTime s;
          jumpList := Some jl |},
       selectSpecificTab forwardTabId)
  | None => (s, selectSpecificTab (Some (-1)))
  end.

(** Whether [register] credits the last visited tab at instant
    [currentTime]: [(this.lastVisitedTime != null) &&
    (TIME_DELTA <= (currentTime - this.lastVisitedTime))]. *)
Definition dwelled (s : t) (currentTime : Z) : bool :=
  match lastVisitedTime s with
  | Some since => bool_decide (TIME_DELTA ≤ currentTime - since)
  | None => false
  end.

(** [register(tabId)], with [currentTime] the instant read by
    [new Date()].  [lastVisited] and [lastVisitedTime] are assigned
    together everywhere, so the write [this.cache[this.lastVisited]] finds
    a tab id in [lastVisited] (lemma [pending_fields_agree] below); in the
    other case, which no call sequence reaches, only the increment of the
    clock is modelled. *)
Definition register (tabId currentTime : Z) (s : t) : t :=
  let timestamp' :=
    if dwelled s currentTime then timestamp s + 1 else timestamp s in
  let cache' :=
    if dwelled s currentTime then
      match lastVisited s with
      | Some visited => <[ visited := timestamp' ]> (cache s)
      | None => cache s
      end
    else cache s in
  let jumpList' :=
    match jumpList s with
    | Some jl => if TabJumpList.isCoherent jl tabId then Some jl else None
    | None => None
    end in
  {| timestamp := timestamp';
     current := tabId;
     cache := cache';
     lastVisited := Some tabId;
     lastVisitedTime := Some currentTime;
     jumpList := jumpList' |}.

(** [deregister(tabId)] *)
Definition deregister (tabId : Z) (s : t) : t :=
  let pending := bool_decide (lastVisited s = Some tabId) in
  let jumpList' :=
    match jumpList s with
    | Some jl =>
        let '(jumpListInvalidated, jl') := TabJumpList.deregister tabId jl in
        if jumpListInvalidated then None else Some jl'
    | None => None
    end in
  {| timestamp := timestamp s;
     current := current s;
     cache := delete tabId (cache s);
     lastVisited := if pending then None else lastVisited s;
     lastVisitedTime := if pending then None else lastVisitedTime s;
     jumpList := jumpList' |}.

End TabRecency.

(** ** Call sequences *)

(** What the browser listeners and the shortcut commands call on the
    singleton.  [chrome.tabs.onActivated] and the focus listener call
    [register], [chrome.tabs.onRemoved] calls [deregister], and
    [chrome.tabs.onReplaced] calls [deregister] then [register]. *)
Inductive call : Type :=
  | Register (tabId currentTime : Z)
  | Deregister (tabId : Z)
  | JumpBack
  | JumpForward.

Definition step (s : TabRecency.t) (c : call) : TabRecency.t :=
  match c with
  | Register tabId currentTime => TabRecency.register tabId currentTime s
  | Deregister tabId => TabRecency.deregister tabId s
  | JumpBack => fst (TabRecency.jumpBackTab s)
  | JumpForward => fst (TabRecency.jumpForwardTab s)
  end.

Definition run (s : TabRecency.t) (cs : list call) : TabRecency.t :=
  foldl step s cs.

(** The requests sent to the browser along a sequence of calls. *)
Definition output (s : TabRecency.t) (c : call) : list chrome_call :=
  match c with
  | JumpBack => snd (TabRecency.jumpBackTab s)
  | JumpForward => snd (TabRecency.jumpForwardTab s)
  | Register _ _ | Deregister _ => []
  end.

Fixpoint trace (s : TabRecency.t) (cs : list call) : list chrome_call :=
  match cs with
  | [] => []
  | c :: cs' => output s c ++ trace (step s c) cs'
  end.

(** Only [register] and [deregister]. *)
Definition is_event (c : call) : bool :=
  match c with
  | Register _ _ | Deregister _ => true
  | JumpBack | JumpForward => false
  end.

(** The states the singleton can be in. *)
Definition reachable (s : TabRecency.t) : Prop :=
  ∃ cs, s = run TabRecency.new cs.

(** ** Predicates used in the statements *)

(** The index of a jump list is [-1] for an empty array and otherwise the
    index of an element. *)
Definition jl_wf (jl : TabJumpList.t) : Prop :=
  -1 ≤ TabJumpList.activeIdx jl < Z.of_nat (length (TabJumpList.tabs jl)).

(** Slot [i] of the jump list holds a tab that is not tombstoned. *)
Definition jl_live (jl : TabJumpList.t) (i : Z) : Prop :=
  ∃ id, js_index (TabJumpList.tabs jl) i = Some id
        ∧ id ∉ TabJumpList.deletedTabs jl.

(** Operations on a jump list, and the values returned by its two steps
    along a sequence of them. *)
Inductive jl_op : Type :=
  | Back
  | Forward
  | Tombstone (tabId : Z).

Fixpoint jl_returns (jl : TabJumpList.t) (ops : list jl_op) : list (option Z) :=
  match ops with
  | [] => []
  | Back :: ops' =>
      let '(r, jl') := TabJumpList.getJumpBackTabId jl in r :: jl_returns jl' ops'
  | Forward :: ops' =>
      let '(r, jl') := TabJumpList.getJumpForwardTabId jl in r :: jl_returns jl' ops'
  | Tombstone tabId :: ops' =>
      jl_returns (snd (TabJumpList.deregister tabId jl)) ops'
  end.

(** [x] occurs before [y] in [l]. *)
Definition precedes (x y : Z) (l : list Z) : Prop :=
  ∃ l1 l2 l3, l = l1 ++ x :: l2 ++ y :: l3.

(** The tab the live jump list declares active, if there is one. *)
Definition anchor (s : TabRecency.t) : option Z :=
  match TabRecency.jumpList s with
  | Some jl => TabJumpList.activeTab jl
  | None => None
  end.

(** Coherence: a live jump list declares the current tab active. *)
Definition coherent (s : TabRecency.t) : Prop :=
  match TabRecency.jumpList s with
  | Some jl => TabJumpList.activeTab jl = Some (TabRecency.current s)
  | None => True
  end.

(** The value the step of each jump command yields; [Some (-1)] is "no
    tab". *)
Definition jumpBackTarget (s : TabRecency.t) : option Z :=
  fst (TabJumpList.getJumpBackTabId (TabRecency.jumpBackList s)).

Definition jumpForwardTarget (s : TabRecency.t) : option Z :=
  match TabRecency.jumpList s with
  | Some jl => fst (TabJumpList.getJumpForwardTabId jl)
  | None => Some (-1)
  end.

(** The call writes the timestamp of tab [x]: afterwards the cache has an
    entry for [x] that it did not have before. *)
Definition writes (s s' : TabRecency.t) (x : Z) : Prop :=
  is_Some (TabRecency.cache s' !! x)
  ∧ TabRecency.cache s' !! x ≠ TabRecency.cache s !! x.

(** What holds of the fields of the singleton in every state it reaches. *)
Record tracker_inv (s : TabRecency.t) : Prop := {
  inv_timestamp : 1 ≤ TabRecency.timestamp s;
  inv_pending :
    TabRecency.lastVisited s = None ↔ TabRecency.lastVisitedTime s = None;
  inv_current :
    ∀ x, TabRecency.lastVisited s = Some x → TabRecency.current s = x;
  inv_clock :
    ∀ k v, TabRecency.cache s !! k = Some v → 1 < v ≤ TabRecency.timestamp s;
  inv_distinct :
    ∀ k1 k2 v, TabRecency.cache s !! k1 = Some v →
               TabRecency.cache s !! k2 = Some v → k1 = k2;
  inv_jumpList :
    ∀ jl, TabRecency.jumpList s = Some jl → jl_wf jl
}.

(** ** The shortcut helpers of the popup

    [joinKeys], [findShortcut] and [createShiftedShortcut] of the module
    that binds the popup's keyboard shortcuts.  Shortcuts are strings such
    as ["ctrl+shift+K"]. *)

(** [arr.join(sep)] for an array of strings. *)
Definition js_join (sep : string) (arr : list string) : string :=
  String.concat sep arr.

(** [s.split(sep)] for a separator of one character: the segments between
    the occurrences of [sep]; a string with no occurrence, the empty string
    included, gives one segment. *)
Fixpoint js_split (sep : ascii) (s : string) : list string :=
  match s with
  | EmptyString => [EmptyString]
  | String c s' =>
      if Ascii.eqb c sep then EmptyString :: js_split sep s'
      else match js_split sep s' with
           | seg :: segs => String c seg :: segs
           | [] => [String c EmptyString]
           end
  end.

(** Whether character [c] occurs in [s]. *)
Fixpoint has_char (c : ascii) (s : string) : bool :=
  match s with
  | EmptyString => false
  | String c' s' => Ascii.eqb c' c || has_char c s'
  end.

(** A key name or modifier: a string without ["+"]. *)
Definition plus_free (s : string) : Prop := has_char "+" s = false.

(** [joinKeys(modifiers, baseKey)]:
    [[].concat(modifiers).concat(baseKey).join("+")], for an array of
    modifiers and one base key. *)
Definition joinKeys (modifiers : list string) (baseKey : string) : string :=
  js_join "+" (modifiers ++ [baseKey]).

(** An entry of the list of browser shortcuts: [{id, shortcut}], where
    [shortcut] may be undefined. *)
Module Command.
Record t : Type := mk {
  id : string;
  shortcut : option string
}.
End Command.

(** [findShortcut(shortcuts, shortcutID)]:
    [shortcuts.find(({id}) => id == shortcutID).shortcut || ""].  When no
    entry has the id, [find] returns [undefined] and reading [.shortcut]
    throws a [TypeError]: the result is [None]. *)
Definition findShortcut (shortcuts : list Command.t) (shortcutID : string)
    : option string :=
  match List.find (λ c, bool_decide (Command.id c = shortcutID)) shortcuts with
  | Some c =>
      match Command.shortcut c with
      | Some sc => Some sc
      | None => Some ""%string
      end
  | None => None
  end.

(** [createShiftedShortcut(shortcuts, shortcutID)]: [keys[0]] is read
    before [keys.pop()] takes the last element, and [baseKey && ...] yields
    the empty [baseKey] itself. *)
Definition createShiftedShortcut (shortcuts : list Command.t)
    (shortcutID : string) : option string :=
  match findShortcut shortcuts shortcutID with
  | Some sc =>
      let keys := js_split "+" sc in
      let modifier := default ""%string (head keys) in
      let baseKey := default ""%string (last keys) in
      Some (if decide (baseKey = ""%string) then baseKey
            else joinKeys [modifier; "shift"%string] baseKey)
  | None => None
  end.

(** ** The default data of the storage

    The function handed to [createStorage] in [quickey-storage.js], applied
    to the result of the query for the active tab of the current window
    ([None] when the query yields no array) and to the instant [Date.now()]
    returns.  A tab object has its [id], the [lastVisit] stamp written here
    and its other properties. *)
Definition StorageVersion : Z := 3.

Record tab (props : Type) : Type := mkTab {
  tab_id : Z;
  tab_lastVisit : option Z;
  tab_props : props
}.
Arguments mkTab {props}.
Arguments tab_id {props}.
Arguments tab_lastVisit {props}.
Arguments tab_props {props}.

Record data (props : Type) : Type := mkData {
  tabIDs : list Z;
  tabsByID : gmap Z (tab props);
  previousTabIndex : Z;
  switchFromShortcut : bool;
  lastShortcutTabID : option Z;
  lastShortcutTime : Z;
  lastStartupTime : Z;
  lastUpdateTime : Z
}.
Arguments mkData {props}.
Arguments tabIDs {props}.
Arguments tabsByID {props}.
Arguments previousTabIndex {props}.
Arguments switchFromShortcut {props}.
Arguments lastShortcutTabID {props}.
Arguments lastShortcutTime {props}.
Arguments lastStartupTime {props}.
Arguments lastUpdateTime {props}.

Definition defaultData {props : Type} (tabs : option (list (tab props)))
    (now : Z) : data props :=
  let empty :=
    {| tabIDs := []; tabsByID := ∅; previousTabIndex := -1;
       switchFromShortcut := false; lastShortcutTabID := None;
       lastShortcutTime := 0; lastStartupTime := 0; lastUpdateTime := 0 |} in
  match tabs with
  | Some (t :: _) =>
      let t' := {| tab_id := tab_id t; tab_lastVisit := Some now;
                   tab_props := tab_props t |} in
      {| tabIDs := tabIDs empty ++ [tab_id t];
         tabsByID := <[ tab_id t := t' ]> (tabsByID empty);
         previousTabIndex := previousTabIndex empty;
         switchFromShortcut := switchFromShortcut empty;
         lastShortcutTabID := lastShortcutTabID empty;
         lastShortcutTime := lastShortcutTime empty;
         lastStartupTime := lastStartupTime empty;
         lastUpdateTime := lastUpdateTime empty |}
  | Some [] | None => empty
  end.

(** ** The listeners of the tracker *)

(** The listener of [chrome.tabs.onReplaced] installed by the constructor
    of [TabRecency]: [this.deregister(removedTabId);
    this.register(addedTabId);]. *)
Definition onReplaced (addedTabId removedTabId currentTime : Z)
    (s : TabRecency.t) : TabRecency.t :=
  TabRecency.register addedTabId currentTime
    (TabRecency.deregister removedTabId s).

(** The jump list with its index moved to slot [i]. *)
Definition jl_at (jl : TabJumpList.t) (i : Z) : TabJumpList.t :=
  {| TabJumpList.tabs := TabJumpList.tabs jl;
     TabJumpList.activeIdx := i;
     TabJumpList.deletedTabs := TabJumpList.deletedTabs jl |}.

(** Tab [tabId] is registered somewhere in the sequence of calls. *)
Definition registered (cs : list call) (tabId : Z) : Prop :=
  ∃ currentTime, Register tabId currentTime ∈ cs.

(** Every tab id the singleton holds comes from a [register] call of the
    sequence [cs]; [current] starts as [-1]. *)
Definition known (cs : list call) (s : TabRecency.t) : Prop :=
  (∀ k, is_Some (TabRecency.cache s !! k) → registered cs k)
  ∧ (∀ v, TabRecency.lastVisited s = Some v → registered cs v)
  ∧ (TabRecency.current s = -1 ∨ registered cs (TabRecency.current s))
  ∧ (∀ jl x, TabRecency.jumpList s = Some jl → x ∈ TabJumpList.tabs jl →
             x = -1 ∨ registered cs x).

(** A sequence of activations [(tabId, currentTime)] in which each comes
    less than [TIME_DELTA] ms after the one before; [since] is the instant
    of the activation that precedes the sequence, if any. *)
Fixpoint rapid (since : option Z) (visits : list (Z * Z)) : Prop :=
  match visits with
  | [] => True
  | (_, currentTime) :: visits' =>
      match since with
      | Some t0 => currentTime - t0 < TIME_DELTA
      | None => True
      end
      ∧ rapid (Some currentTime) visits'
  end.

Definition registrations (visits : list (Z * Z)) : list call :=
  map (λ v, Register (fst v) (snd v)) visits.

Example ranking_example :
  TabRecency.getTabsByRecency
    (run TabRecency.new
       [Register 1 0; Register 2 300; Register 3 600; Register 4 900])
  = [3; 2; 1].
Proof. vm_compute. reflexivity. Qed.

(** Three tabs visited for 300 ms each; two jumps back and one forward, each
    followed by the activation event it causes. *)
Example round_trip :
  trace TabRecency.new
    [Register 1 0; Register 2 300; Register 3 600;
     JumpBack; Register 2 700; JumpBack; Register 1 800;
     JumpForward; Register 2 900]
  = [ChromeTabsGet (Some 2); ChromeTabsGet (Some 1); ChromeTabsGet (Some 2)].
Proof. vm_compute. reflexivity. Qed.

(** Closing tab 1 leaves the jump list anchored at tab 3 alive and its slot
    is skipped; closing tab 3 discards the jump list. *)
Example invalidation :
  let s := run TabRecency.new
             [Register 1 0; Register 2 300; Register 3 600; Register 4 900;
              JumpBack; Register 3 1000] in
  anchor s = Some 3
  ∧ trace s [Deregister 2; JumpBack] = [ChromeTabsGet (Some 1)]
  ∧ TabRecency.jumpList (run s [Deregister 3]) = None.
Proof. vm_compute. done. Qed.

(** * The jump list *)

Section JumpList.
Import TabJumpList.

Lemma scanBack_range jl n :
  scanBack jl n = -1
  ∨ (0 ≤ scanBack jl n < Z.of_nat n
     ∧ deleted jl (js_index (tabs jl) (scanBack jl n)) = false).
Proof.
  induction n as [|i IH]; simpl; [by left|].
  destruct (deleted jl (js_index (tabs jl) (Z.of_nat i))) eqn:E.
  - destruct IH as [IH|[IH1 IH2]]; [by left|right]. split; [lia|done].
  - right. split; [lia|done].
Qed.

Lemma scanBack_none jl n :
  (∀ i, 0 ≤ i < Z.of_nat n → deleted jl (js_index (tabs jl) i) = true) →
  scanBack jl n = -1.
Proof.
  induction n as [|i IH]; simpl; intros H; [done|].
  rewrite H by lia. apply IH. intros j Hj. apply H. lia.
Qed.

Lemma scanForward_range jl fuel i :
  0 ≤ i →
  scanForward jl fuel i = -1
  ∨ (i ≤ scanForward jl fuel i < i + Z.of_nat fuel
     ∧ deleted jl (js_index (tabs jl) (scanForward jl fuel i)) = false).
Proof.
  revert i. induction fuel as [|fuel IH]; simpl; intros i Hi; [by left|].
  destruct (deleted jl (js_index (tabs jl) i)) eqn:E.
  - destruct (IH (i + 1)) as [IH'|[IH1 IH2]]; [lia|by left|right].
    split; [lia|done].
  - right. split; [lia|done].
Qed.

Lemma scanForward_none jl fuel i :
  (∀ j, i ≤ j < i + Z.of_nat fuel →
        deleted jl (js_index (tabs jl) j) = true) →
  scanForward jl fuel i = -1.
Proof.
  revert i. induction fuel as [|fuel IH]; simpl; intros i H; [done|].
  rewrite H by lia. apply IH. intros j Hj. apply H. lia.
Qed.

(** A slot inside the array that is not live is skipped by the scans. *)
Lemma deleted_not_live jl i :
  0 ≤ i < Z.of_nat (length (tabs jl)) →
  ¬ jl_live jl i → deleted jl (js_index (tabs jl) i) = true.
Proof.
  intros Hi Hlive. unfold js_index. rewrite decide_True by lia.
  destruct (lookup_lt_is_Some_2 (tabs jl) (Z.to_nat i)) as [id Hid]; [lia|].
  rewrite Hid. simpl. apply bool_decide_eq_true.
  destruct (decide (id ∈ deletedTabs jl)) as [|Hn]; [done|].
  exfalso. apply Hlive. exists id. split; [|done].
  unfold js_index. by rewrite decide_True by lia.
Qed.

(** A step never returns a tombstoned tab. *)
Lemma getJumpBackTabId_not_deleted jl id :
  id ∈ deletedTabs jl → id ≠ -1 → fst (getJumpBackTabId jl) ≠ Some id.
Proof.
  intros Hin Hne. unfold getJumpBackTabId.
  destruct (scanBack_range jl (Z.to_nat (activeIdx jl))) as [E|[_ E]].
  - rewrite decide_True by done. simpl. congruence.
  - case_decide; simpl; [congruence|].
    intros Heq. rewrite Heq in E. simpl in E.
    by apply bool_decide_eq_false in E.
Qed.

Lemma scanForward_not_deleted jl fuel i :
  scanForward jl fuel i = -1
  ∨ deleted jl (js_index (tabs jl) (scanForward jl fuel i)) = false.
Proof.
  revert i. induction fuel as [|fuel IH]; simpl; intros i; [by left|].
  destruct (deleted jl (js_index (tabs jl) i)) eqn:E; [apply IH|by right].
Qed.

Lemma getJumpForwardTabId_not_deleted jl id :
  id ∈ deletedTabs jl → id ≠ -1 → fst (getJumpForwardTabId jl) ≠ Some id.
Proof.
  intros Hin Hne. unfold getJumpForwardTabId. cbv zeta.
  destruct (scanForward_not_deleted jl
              (Z.to_nat (Z.of_nat (length (tabs jl)) - (activeIdx jl + 1)))
              (activeIdx jl + 1)) as [E|E].
  - rewrite decide_True by done. simpl. congruence.
  - case_decide; simpl; [congruence|].
    intros Heq. rewrite Heq in E. simpl in E.
    by apply bool_decide_eq_false in E.
Qed.

(** The steps keep the array and the tombstones. *)
Lemma getJumpBackTabId_frame jl :
  tabs (snd (getJumpBackTabId jl)) = tabs jl
  ∧ deletedTabs (snd (getJumpBackTabId jl)) = deletedTabs jl.
Proof. unfold getJumpBackTabId. by case_decide. Qed.

Lemma getJumpForwardTabId_frame jl :
  tabs (snd (getJumpForwardTabId jl)) = tabs jl
  ∧ deletedTabs (snd (getJumpForwardTabId jl)) = deletedTabs jl.
Proof. unfold getJumpForwardTabId. cbv zeta. by case_decide. Qed.

Lemma deregister_frame tabId jl :
  tabs (snd (deregister tabId jl)) = tabs jl
  ∧ activeIdx (snd (deregister tabId jl)) = activeIdx jl
  ∧ deletedTabs jl ⊆ deletedTabs (snd (deregister tabId jl)).
Proof.
  unfold deregister. case_bool_decide; simpl; [done|].
  repeat split; set_solver.
Qed.

Lemma jl_returns_not_deleted ops : ∀ jl id,
  id ∈ deletedTabs jl → id ≠ -1 → Some id ∉ jl_returns jl ops.
Proof.
  induction ops as [|[| |t] ops IH]; intros jl id Hin Hne; simpl.
  - apply not_elem_of_nil.
  - pose proof (getJumpBackTabId_not_deleted jl id Hin Hne) as Hr.
    pose proof (getJumpBackTabId_frame jl) as [_ Hd].
    destruct (getJumpBackTabId jl) as [r jl']; simpl in *.
    apply not_elem_of_cons. split; [congruence|].
    apply IH; [by rewrite Hd|done].
  - pose proof (getJumpForwardTabId_not_deleted jl id Hin Hne) as Hr.
    pose proof (getJumpForwardTabId_frame jl) as [_ Hd].
    destruct (getJumpForwardTabId jl) as [r jl']; simpl in *.
    apply not_elem_of_cons. split; [congruence|].
    apply IH; [by rewrite Hd|done].
  - apply IH; [|done].
    pose proof (deregister_frame t jl) as (_ & _ & Hsub). set_solver.
Qed.

(** The shape of the index is kept by every operation. *)
Lemma jl_wf_new l : jl_wf (new l).
Proof. unfold jl_wf, new. simpl. lia. Qed.

Lemma jl_wf_getJumpBackTabId jl :
  jl_wf jl → jl_wf (snd (getJumpBackTabId jl)).
Proof.
  unfold jl_wf, getJumpBackTabId. intros Hwf.
  destruct (scanBack_range jl (Z.to_nat (activeIdx jl))) as [E|[E _]];
    case_decide; simpl; try done; lia.
Qed.

Lemma jl_wf_getJumpForwardTabId jl :
  jl_wf jl → jl_wf (snd (getJumpForwardTabId jl)).
Proof.
  unfold jl_wf, getJumpForwardTabId. cbv zeta. intros Hwf.
  destruct (scanForward_range jl
              (Z.to_nat (Z.of_nat (length (tabs jl)) - (activeIdx jl + 1)))
              (activeIdx jl + 1)) as [E|[E _]]; [lia| |];
    case_decide; simpl; try done; lia.
Qed.

Lemma jl_wf_deregister tabId jl :
  jl_wf jl → jl_wf (snd (deregister tabId jl)).
Proof. unfold jl_wf, deregister. by case_bool_decide. Qed.

Lemma getJumpBackTabId_boundary jl :
  jl_wf jl →
  (∀ i, 0 ≤ i < activeIdx jl → ¬ jl_live jl i) →
  getJumpBackTabId jl = (Some (-1), jl).
Proof.
  intros Hwf Hnone. unfold getJumpBackTabId.
  rewrite scanBack_none; [by rewrite decide_True|].
  intros i Hi. unfold jl_wf in Hwf.
  apply deleted_not_live; [lia|]. apply Hnone. lia.
Qed.

Lemma getJumpForwardTabId_boundary jl :
  jl_wf jl →
  (∀ i, activeIdx jl < i → ¬ jl_live jl i) →
  getJumpForwardTabId jl = (Some (-1), jl).
Proof.
  intros Hwf Hnone. unfold getJumpForwardTabId. cbv zeta.
  rewrite scanForward_none; [by rewrite decide_True|].
  intros i Hi. unfold jl_wf in Hwf.
  apply deleted_not_live; [lia|]. apply Hnone. lia.
Qed.

(** C10.  Deregistering the tab at [activeIdx] reports that the jump list
    is invalidated and changes none of its fields: [tabs], [activeIdx] and
    [deletedTabs] are as before, so the tab is not added to
    [deletedTabs]. *)
Theorem deregister_anchor_untouched (jl : t) (tabId : Z) :
  activeTab jl = Some tabId →
  deregister tabId jl = (true, jl)
  ∧ tabs (snd (deregister tabId jl)) = tabs jl
  ∧ activeIdx (snd (deregister tabId jl)) = activeIdx jl
  ∧ deletedTabs (snd (deregister tabId jl)) = deletedTabs jl.
Proof.
  intros H. unfold deregister. by rewrite bool_decide_eq_true_2.
Qed.

Lemma deregister_anchor_untouched_witness :
  deregister 3 (new [1; 2; 3]) = (true, new [1; 2; 3])
  ∧ tabs (snd (deregister 3 (new [1; 2; 3]))) = [1; 2; 3]
  ∧ activeIdx (snd (deregister 3 (new [1; 2; 3]))) = 2
  ∧ deletedTabs (snd (deregister 3 (new [1; 2; 3]))) = ∅.
Proof. apply (deregister_anchor_untouched (new [1; 2; 3]) 3). reflexivity. Defined.

(** C7.  Deregistering from a jump list a tab that is not the tab at
    [activeIdx] returns false and adds the tab to [deletedTabs], leaving
    [tabs] and [activeIdx] as they were; after that, whatever steps back
    and forward (and further deregistrations) follow, no call of
    [getJumpBackTabId] or [getJumpForwardTabId] returns that tab.  The tab
    id is an id of a tab, not the [-1] that the steps return for "no
    tab". *)
Theorem tombstone_skip (jl : t) (tabId : Z) (ops : list jl_op) :
  activeTab jl ≠ Some tabId →
  tabId ≠ -1 →
  fst (deregister tabId jl) = false
  ∧ tabs (snd (deregister tabId jl)) = tabs jl
  ∧ activeIdx (snd (deregister tabId jl)) = activeIdx jl
  ∧ deletedTabs (snd (deregister tabId jl)) = {[ tabId ]} ∪ deletedTabs jl
  ∧ Some tabId ∉ jl_returns (snd (deregister tabId jl)) ops.
Proof.
  intros Hanchor Hid.
  assert (deregister tabId jl
          = (false, {| tabs := tabs jl; activeIdx := activeIdx jl;
                       deletedTabs := {[ tabId ]} ∪ deletedTabs jl |})) as ->.
  { unfold deregister. by rewrite bool_decide_eq_false_2. }
  simpl. repeat split.
  apply jl_returns_not_deleted; [simpl; set_solver|done].
Qed.

Lemma tombstone_skip_witness :
  fst (deregister 2 (new [1; 2; 3])) = false
  ∧ tabs (snd (deregister 2 (new [1; 2; 3]))) = [1; 2; 3]
  ∧ activeIdx (snd (deregister 2 (new [1; 2; 3]))) = 2
  ∧ deletedTabs (snd (deregister 2 (new [1; 2; 3]))) = {[ 2 ]} ∪ ∅
  ∧ Some 2 ∉ jl_returns (snd (deregister 2 (new [1; 2; 3])))
               [Back; Back; Forward; Forward].
Proof.
  apply (tombstone_skip (new [1; 2; 3]) 2 [Back; Back; Forward; Forward]).
  - vm_compute. congruence.
  - lia.
Defined.

(** C8.  In a jump list with no live (non-tombstoned) tab below
    [activeIdx], [getJumpBackTabId] returns [-1] and leaves the jump list,
    its [activeIdx] included, as it was, also after any number of earlier
    calls; the same holds for [getJumpForwardTabId] when no live tab is
    above [activeIdx]. *)
Theorem boundary_idempotence (jl : t) (n : nat) :
  jl_wf jl →
  ((∀ i, 0 ≤ i < activeIdx jl → ¬ jl_live jl i) →
   getJumpBackTabId (Nat.iter n (λ j, snd (getJumpBackTabId j)) jl)
   = (Some (-1), jl))
  ∧ ((∀ i, activeIdx jl < i → ¬ jl_live jl i) →
     getJumpForwardTabId (Nat.iter n (λ j, snd (getJumpForwardTabId j)) jl)
     = (Some (-1), jl)).
Proof.
  intros Hwf. split; intros Hnone.
  - assert (Nat.iter n (λ j, snd (getJumpBackTabId j)) jl = jl) as ->.
    { induction n as [|n IH]; simpl; [done|].
      by rewrite IH, getJumpBackTabId_boundary. }
    by apply getJumpBackTabId_boundary.
  - assert (Nat.iter n (λ j, snd (getJumpForwardTabId j)) jl = jl) as ->.
    { induction n as [|n IH]; simpl; [done|].
      by rewrite IH, getJumpForwardTabId_boundary. }
    by apply getJumpForwardTabId_boundary.
Qed.

Lemma boundary_idempotence_witness :
  let jl := {| tabs := [1; 2; 3]; activeIdx := 1; deletedTabs := {[ 1; 3 ]} |} in
  jl_wf jl
  ∧ getJumpBackTabId (Nat.iter 2 (λ j, snd (getJumpBackTabId j)) jl)
    = (Some (-1), jl)
  ∧ getJumpForwardTabId (Nat.iter 2 (λ j, snd (getJumpForwardTabId j)) jl)
    = (Some (-1), jl).
Proof.
  intros jl.
  assert (jl_wf jl) as Hwf by (unfold jl_wf; simpl; lia).
  destruct (boundary_idempotence jl 2 Hwf) as [Hback Hforward].
  split; [exact Hwf|]. split.
  - apply Hback. simpl. intros i Hi (id & Hidx & Hlive).
    assert (i = 0) as -> by lia. apply Hlive.
    injection Hidx as <-. set_solver.
  - apply Hforward. simpl. intros i Hi (id & Hidx & Hlive).
    destruct (decide (i = 2)) as [->|Hne].
    + apply Hlive. injection Hidx as <-. set_solver.
    + unfold js_index in Hidx. rewrite decide_True in Hidx by lia.
      rewrite lookup_ge_None_2 in Hidx; [done|simpl; lia].
Defined.

End JumpList.

(** * The ranking *)

Section Sort.
Variable f : Z → Z.

(** The comparator of [getTabsByRecency], for a key [f]. *)
Let cmp : Z → Z → Z := λ a b, f b - f a.

Lemma js_sort_insert_perm x l : js_sort_insert cmp x l ≡ₚ x :: l.
Proof.
  induction l as [|y l IH]; simpl; [done|].
  case_decide; [done|]. rewrite IH. apply Permutation_swap.
Qed.

Lemma js_sort_perm l : js_sort cmp l ≡ₚ l.
Proof.
  induction l as [|x l IH]; simpl; [done|].
  by rewrite js_sort_insert_perm, IH.
Qed.

Lemma js_sort_insert_sorted x l :
  StronglySorted (λ a b, f b ≤ f a) l →
  StronglySorted (λ a b, f b ≤ f a) (js_sort_insert cmp x l).
Proof.
  induction 1 as [|y l Hl IH Hy]; simpl.
  - repeat constructor.
  - unfold cmp at 1. case_decide as Hc.
    + constructor; [by constructor|].
      constructor; [lia|].
      eapply Forall_impl; [exact Hy|]. simpl. intros z Hz. lia.
    + constructor; [exact IH|].
      rewrite js_sort_insert_perm. constructor; [lia|exact Hy].
Qed.

Lemma js_sort_sorted l : StronglySorted (λ a b, f b ≤ f a) (js_sort cmp l).
Proof.
  induction l as [|x l IH]; simpl; [constructor|].
  by apply js_sort_insert_sorted.
Qed.
End Sort.

Lemma object_keys_perm (obj : gmap Z Z) : object_keys obj ≡ₚ (map_to_list obj).*1.
Proof. apply merge_sort_Permutation. Qed.

Lemma elem_of_object_keys (obj : gmap Z Z) k :
  k ∈ object_keys obj ↔ is_Some (obj !! k).
Proof.
  rewrite object_keys_perm, list_elem_of_fmap. split.
  - intros ([k' v] & -> & Hin). apply elem_of_map_to_list in Hin. by exists v.
  - intros [v Hv]. exists (k, v). split; [done|]. by apply elem_of_map_to_list.
Qed.

Lemma NoDup_object_keys (obj : gmap Z Z) : NoDup (object_keys obj).
Proof. rewrite object_keys_perm. apply NoDup_fst_map_to_list. Qed.

Section Ranking.
Import TabRecency.

Lemma getTabsByRecency_perm s : getTabsByRecency s ≡ₚ object_keys (cache s).
Proof. apply js_sort_perm. Qed.

Lemma elem_of_getTabsByRecency s x :
  x ∈ getTabsByRecency s ↔ is_Some (cache s !! x).
Proof. by rewrite getTabsByRecency_perm, elem_of_object_keys. Qed.

Lemma getTabsByRecency_sorted s :
  StronglySorted (λ a b, cacheAt s b ≤ cacheAt s a) (getTabsByRecency s).
Proof. apply js_sort_sorted. Qed.

(** C6.  [getTabsByRecency] returns exactly the tabs with an entry in
    [cache], each once, sorted by timestamp in descending order; of two
    tabs of the cache the one with the strictly greater timestamp (the one
    credited later) comes first, and a tab with no entry is not in the
    result. *)
Theorem ranking_order (s : t) :
  (∀ x, x ∈ getTabsByRecency s ↔ is_Some (cache s !! x))
  ∧ NoDup (getTabsByRecency s)
  ∧ StronglySorted (λ a b, cacheAt s b ≤ cacheAt s a) (getTabsByRecency s)
  ∧ (∀ x y tx ty,
       cache s !! x = Some tx → cache s !! y = Some ty → ty < tx →
       precedes x y (getTabsByRecency s))
  ∧ (∀ x, cache s !! x = None → x ∉ getTabsByRecency s).
Proof.
  split; [apply elem_of_getTabsByRecency|].
  split; [rewrite getTabsByRecency_perm; apply NoDup_object_keys|].
  split; [apply getTabsByRecency_sorted|]. split.
  - intros x y tx ty Hx Hy Hlt.
    assert (x ∈ getTabsByRecency s) as Hinx
      by (apply elem_of_getTabsByRecency; eauto).
    assert (y ∈ getTabsByRecency s) as Hiny
      by (apply elem_of_getTabsByRecency; eauto).
    pose proof (getTabsByRecency_sorted s) as Hsorted.
    apply list_elem_of_split in Hinx as (l1 & l' & Heq).
    rewrite Heq in Hiny, Hsorted.
    apply elem_of_app in Hiny as [Hin1|Hin2].
    + apply StronglySorted_app_1_elem_of with (x1 := y) (x2 := x) in Hsorted;
        [|done|by left].
      unfold cacheAt in Hsorted. rewrite Hx, Hy in Hsorted. simpl in Hsorted.
      lia.
    + apply elem_of_cons in Hin2 as [->|Hin2]; [rewrite Hx in Hy; simplify_eq; lia|].
      apply list_elem_of_split in Hin2 as (l2 & l3 & ->).
      by exists l1, l2, l3.
  - intros x Hx Hin. apply elem_of_getTabsByRecency in Hin.
    rewrite Hx in Hin. by destruct Hin.
Qed.

Lemma ranking_order_witness :
  let s := run new [Register 1 0; Register 2 300; Register 3 600;
                    Register 4 900] in
  precedes 3 1 (getTabsByRecency s) ∧ 4 ∉ getTabsByRecency s.
Proof.
  intros s. destruct (ranking_order s) as (_ & _ & _ & Hprec & Hout).
  split.
  - apply (Hprec 3 1 4 2); [reflexivity|reflexivity|lia].
  - apply Hout. reflexivity.
Defined.

End Ranking.

(** * The tracker *)

Section Tracker.
Import TabRecency.

Lemma run_snoc s cs c : run s (cs ++ [c]) = step (run s cs) c.
Proof. unfold run. by rewrite foldl_app. Qed.

Lemma run_ind (P : t → Prop) :
  (∀ s c, P s → P (step s c)) → ∀ cs s, P s → P (run s cs).
Proof.
  intros Hstep cs. induction cs as [|c cs IH]; intros s Hs; [done|].
  simpl. apply IH, Hstep, Hs.
Qed.

Lemma dwelled_true s currentTime :
  dwelled s currentTime = true ↔
  ∃ since, lastVisitedTime s = Some since ∧ TIME_DELTA ≤ currentTime - since.
Proof.
  unfold dwelled. destruct (lastVisitedTime s) as [since|].
  - rewrite bool_decide_eq_true. split; [eauto|].
    by intros (? & [= <-] & ?).
  - split; [done|]. by intros (? & ? & ?).
Qed.

(** The three ways [register] leaves the clock and the cache. *)
Lemma register_credit tabId currentTime s visited :
  dwelled s currentTime = true → lastVisited s = Some visited →
  timestamp (register tabId currentTime s) = timestamp s + 1
  ∧ cache (register tabId currentTime s)
    = <[ visited := timestamp s + 1 ]> (cache s).
Proof. intros Hd Hv. unfold register. simpl. by rewrite Hd, Hv. Qed.

Lemma register_skip tabId currentTime s :
  dwelled s currentTime = false →
  timestamp (register tabId currentTime s) = timestamp s
  ∧ cache (register tabId currentTime s) = cache s.
Proof. intros Hd. unfold register. simpl. by rewrite Hd. Qed.

Lemma register_cache_cases tabId currentTime s :
  (timestamp (register tabId currentTime s) = timestamp s
   ∧ cache (register tabId currentTime s) = cache s
   ∧ dwelled s currentTime = false)
  ∨ (timestamp (register tabId currentTime s) = timestamp s + 1
     ∧ cache (register tabId currentTime s) = cache s
     ∧ dwelled s currentTime = true ∧ lastVisited s = None)
  ∨ (∃ visited,
       timestamp (register tabId currentTime s) = timestamp s + 1
       ∧ cache (register tabId currentTime s)
         = <[ visited := timestamp s + 1 ]> (cache s)
       ∧ dwelled s currentTime = true ∧ lastVisited s = Some visited).
Proof.
  unfold register. simpl.
  destruct (dwelled s currentTime); [|by left].
  destruct (lastVisited s) as [visited|]; right; [right|left]; eauto.
Qed.

Lemma tracker_inv_new : tracker_inv new.
Proof. split; simpl; done. Qed.

Lemma tracker_inv_register tabId currentTime s :
  tracker_inv s → tracker_inv (register tabId currentTime s).
Proof.
  intros [Ht Hp Hc Hk Hd Hj].
  pose proof (register_cache_cases tabId currentTime s) as Hcases.
  split.
  - destruct Hcases as [(-> & _)|[(-> & _)|(vis & -> & _)]]; lia.
  - simpl. done.
  - simpl. by intros x [= <-].
  - intros k v.
    destruct Hcases as [(-> & -> & _)|[(-> & -> & _)|(vis & -> & -> & _)]].
    + apply Hk.
    + intros Hv. apply Hk in Hv. lia.
    + rewrite lookup_insert. case_decide.
      * intros [= <-]. lia.
      * intros Hv. apply Hk in Hv. lia.
  - intros k1 k2 v.
    destruct Hcases as [(_ & -> & _)|[(_ & -> & _)|(vis & _ & -> & _)]];
      [apply Hd|apply Hd|].
    rewrite !lookup_insert. repeat case_decide; subst.
    + done.
    + intros [= <-] Hv. apply Hk in Hv. lia.
    + intros Hv [= <-]. apply Hk in Hv. lia.
    + apply Hd.
  - simpl. intros jl. destruct (jumpList s) as [jl0|]; [|done].
    case_match; [|done]. intros [= <-]. by apply Hj.
Qed.

Lemma tracker_inv_deregister tabId s :
  tracker_inv s → tracker_inv (deregister tabId s).
Proof.
  intros [Ht Hp Hc Hk Hd Hj]. split; simpl.
  - done.
  - case_bool_decide; [done|exact Hp].
  - intros x. case_bool_decide; [done|apply Hc].
  - intros k v Hv. apply lookup_delete_Some in Hv as [_ Hv]. by apply Hk in Hv.
  - intros k1 k2 v Hv1 Hv2.
    apply lookup_delete_Some in Hv1 as [_ Hv1].
    apply lookup_delete_Some in Hv2 as [_ Hv2]. by eapply Hd.
  - intros jl. destruct (jumpList s) as [jl0|]; [|done].
    pose proof (jl_wf_deregister tabId jl0 (Hj jl0 eq_refl)) as Hwf.
    destruct (TabJumpList.deregister tabId jl0) as [[|] jl']; [done|].
    by intros [= <-].
Qed.

Lemma jl_wf_jumpBackList s : tracker_inv s → jl_wf (jumpBackList s).
Proof.
  intros Hinv. unfold jumpBackList.
  destruct (jumpList s) as [jl|] eqn:E; [by apply (inv_jumpList s Hinv)|].
  apply jl_wf_new.
Qed.

(** The jump commands change the [jumpList] field only. *)
Lemma jumpBackTab_eq s :
  jumpBackTab s
  = ({| timestamp := timestamp s; current := current s; cache := cache s;
        lastVisited := lastVisited s; lastVisitedTime := lastVisitedTime s;
        jumpList := Some (snd (TabJumpList.getJumpBackTabId (jumpBackList s))) |},
     selectSpecificTab (jumpBackTarget s)).
Proof.
  unfold jumpBackTab, jumpBackTarget.
  by destruct (TabJumpList.getJumpBackTabId (jumpBackList s)).
Qed.

Lemma jumpForwardTab_eq s jl :
  jumpList s = Some jl →
  jumpForwardTab s
  = ({| timestamp := timestamp s; current := current s; cache := cache s;
        lastVisited := lastVisited s; lastVisitedTime := lastVisitedTime s;
        jumpList := Some (snd (TabJumpList.getJumpForwardTabId jl)) |},
     selectSpecificTab (jumpForwardTarget s)).
Proof.
  intros E. unfold jumpForwardTab, jumpForwardTarget. rewrite E.
  by destruct (TabJumpList.getJumpForwardTabId jl).
Qed.

Lemma jumpForwardTab_none s :
  jumpList s = None →
  jumpForwardTab s = (s, selectSpecificTab (jumpForwardTarget s)).
Proof.
  intros E. unfold jumpForwardTab, jumpForwardTarget. by rewrite E.
Qed.

Lemma tracker_inv_jumpBackTab s :
  tracker_inv s → tracker_inv (fst (jumpBackTab s)).
Proof.
  intros Hinv. rewrite jumpBackTab_eq.
  pose proof (jl_wf_jumpBackList s Hinv) as Hwf.
  destruct Hinv as [Ht Hp Hc Hk Hd Hj]. split; simpl; try done.
  intros jl [= <-]. by apply jl_wf_getJumpBackTabId.
Qed.

Lemma tracker_inv_jumpForwardTab s :
  tracker_inv s → tracker_inv (fst (jumpForwardTab s)).
Proof.
  intros Hinv. destruct (jumpList s) as [jl|] eqn:E.
  - rewrite (jumpForwardTab_eq s jl E). destruct Hinv as [Ht Hp Hc Hk Hd Hj].
    split; simpl; try done.
    intros jl' [= <-]. by apply jl_wf_getJumpForwardTabId, Hj.
  - by rewrite (jumpForwardTab_none s E).
Qed.

Lemma tracker_inv_step s c : tracker_inv s → tracker_inv (step s c).
Proof.
  destruct c; simpl.
  - apply tracker_inv_register.
  - apply tracker_inv_deregister.
  - apply tracker_inv_jumpBackTab.
  - apply tracker_inv_jumpForwardTab.
Qed.

(** Every state the singleton reaches satisfies the invariant; among
    others, [lastVisited] and [lastVisitedTime] are null together. *)
Lemma reachable_inv s : reachable s → tracker_inv s.
Proof.
  intros [cs ->]. apply run_ind; [|apply tracker_inv_new].
  intros s c. apply tracker_inv_step.
Qed.

Lemma pending_fields_agree s :
  reachable s → lastVisited s = None ↔ lastVisitedTime s = None.
Proof. intros H. apply (inv_pending s (reachable_inv s H)). Qed.

(** ** Crediting a visit *)

(** C2.  When [register] is called while a tab is pending (last visited),
    that tab gets the freshly incremented clock value in the cache exactly
    when at least [TIME_DELTA] ms have passed since it became pending;
    after a shorter dwell neither the clock nor the cache changes, so a
    tab with no entry still has none. *)
Theorem debounce (s : t) (tabId currentTime visited since : Z) :
  lastVisited s = Some visited →
  lastVisitedTime s = Some since →
  (TIME_DELTA ≤ currentTime - since →
     timestamp (register tabId currentTime s) = timestamp s + 1
     ∧ cache (register tabId currentTime s)
       = <[ visited := timestamp s + 1 ]> (cache s))
  ∧ (currentTime - since < TIME_DELTA →
       timestamp (register tabId currentTime s) = timestamp s
       ∧ cache (register tabId currentTime s) = cache s)
  ∧ (timestamp (register tabId currentTime s) = timestamp s + 1
     ∧ cache (register tabId currentTime s) !! visited
       = Some (timestamp s + 1)
     ↔ TIME_DELTA ≤ currentTime - since)
  ∧ (currentTime - since < TIME_DELTA →
       cache s !! visited = None →
       cache (register tabId currentTime s) !! visited = None).
Proof.
  intros Hv Ht.
  assert (dwelled s currentTime
          = bool_decide (TIME_DELTA ≤ currentTime - since)) as Hd
    by (unfold dwelled; by rewrite Ht).
  assert (TIME_DELTA ≤ currentTime - since →
          timestamp (register tabId currentTime s) = timestamp s + 1
          ∧ cache (register tabId currentTime s)
            = <[ visited := timestamp s + 1 ]> (cache s)) as Hcredit.
  { intros Hle. apply register_credit; [|done].
    rewrite Hd. by apply bool_decide_eq_true. }
  assert (currentTime - since < TIME_DELTA →
          timestamp (register tabId currentTime s) = timestamp s
          ∧ cache (register tabId currentTime s) = cache s) as Hskip.
  { intros Hlt. apply register_skip.
    rewrite Hd. apply bool_decide_eq_false. lia. }
  split; [exact Hcredit|]. split; [exact Hskip|]. split.
  - split.
    + intros [Hts _].
      destruct (decide (TIME_DELTA ≤ currentTime - since)) as [|Hn]; [done|].
      destruct Hskip as [Hts' _]; lia.
    + intros Hle. destruct (Hcredit Hle) as [-> ->].
      by rewrite lookup_insert_eq.
  - intros Hlt Hnone. destruct (Hskip Hlt) as [_ ->]. exact Hnone.
Qed.

Lemma debounce_witness :
  cache (register 2 300 (run new [Register 1 0])) !! 1 = Some 2
  ∧ cache (register 2 249 (run new [Register 1 0])) !! 1 = None.
Proof.
  split.
  - destruct (debounce (run new [Register 1 0]) 2 300 1 0) as (Hcredit & _);
      [reflexivity|reflexivity|].
    destruct Hcredit as [_ ->]; [unfold TIME_DELTA; lia|].
    apply lookup_insert_eq.
  - destruct (debounce (run new [Register 1 0]) 2 249 1 0)
      as (_ & _ & _ & Hnone); [reflexivity|reflexivity|].
    apply Hnone; [unfold TIME_DELTA; lia|reflexivity].
Defined.

(** In a state the singleton reaches, the value written is greater than
    every timestamp of the cache: the timestamp of a credited tab strictly
    increases. *)
Lemma credit_is_newest s k v :
  reachable s → cache s !! k = Some v → v < timestamp s + 1.
Proof.
  intros Hr Hk. apply (inv_clock s (reachable_inv s Hr)) in Hk. lia.
Qed.

(** [lastVisited] and [current] are set together, so the tab credited is
    the one that was current so far.  A window focus event registers the
    active tab of the window, which may be the tab already current: the
    tab credited can stay the current one. *)
Lemma writes_register tabId currentTime s x :
  writes s (register tabId currentTime s) x →
  lastVisited s = Some x
  ∧ dwelled s currentTime = true
  ∧ cache (register tabId currentTime s) !! x = Some (timestamp s + 1).
Proof.
  intros [Hsome Hne].
  destruct (register_cache_cases tabId currentTime s)
    as [(_ & Hc & _)|[(_ & Hc & _)|(vis & _ & Hc & Hd & Hv)]];
    rewrite Hc in Hne; try done.
  destruct (decide (vis = x)) as [->|Hx].
  - rewrite Hc. by rewrite lookup_insert_eq.
  - by rewrite lookup_insert_ne in Hne.
Qed.

(** C9, as the code has it.  In every state the singleton reaches, the
    timestamp of a tab is written only by a call of [register], for the
    tab that is pending (which is the current tab), once at least
    [TIME_DELTA] ms have passed since it became pending; the value written
    is the incremented clock.  [deregister] and the jump commands write no
    timestamp.  The tab registered by that call may be the pending tab
    itself. *)
Theorem timestamp_written_after_dwell (s : t) (c : call) (x : Z) :
  reachable s →
  writes s (step s c) x →
  ∃ tabId currentTime since,
    c = Register tabId currentTime
    ∧ lastVisited s = Some x
    ∧ current s = x
    ∧ lastVisitedTime s = Some since
    ∧ TIME_DELTA ≤ currentTime - since
    ∧ cache (step s c) !! x = Some (timestamp s + 1).
Proof.
  intros Hr Hw. destruct c as [tabId currentTime|tabId| |]; simpl in Hw.
  - apply writes_register in Hw as (Hv & Hd & Hc).
    apply dwelled_true in Hd as (since & Ht & Hle).
    exists tabId, currentTime, since. repeat split; try done.
    by apply (inv_current s (reachable_inv s Hr)).
  - destruct Hw as [Hsome Hne]. simpl in *. exfalso.
    destruct (decide (tabId = x)) as [->|Hx].
    + rewrite lookup_delete_eq in Hsome. by destruct Hsome.
    + by rewrite lookup_delete_ne in Hne.
  - rewrite jumpBackTab_eq in Hw. by destruct Hw as [_ Hne].
  - destruct (jumpList s) as [jl|] eqn:E.
    + rewrite (jumpForwardTab_eq s jl E) in Hw. by destruct Hw as [_ Hne].
    + rewrite (jumpForwardTab_none s E) in Hw. by destruct Hw as [_ Hne].
Qed.

Lemma timestamp_written_after_dwell_witness :
  ∃ tabId currentTime since,
    Register 7 250 = Register tabId currentTime
    ∧ lastVisited (run new [Register 5 0]) = Some 5
    ∧ current (run new [Register 5 0]) = 5
    ∧ lastVisitedTime (run new [Register 5 0]) = Some since
    ∧ TIME_DELTA ≤ currentTime - since
    ∧ cache (step (run new [Register 5 0]) (Register 7 250)) !! 5
      = Some (timestamp (run new [Register 5 0]) + 1).
Proof.
  apply (timestamp_written_after_dwell (run new [Register 5 0])
           (Register 7 250) 5).
  - by exists [Register 5 0].
  - split; [by exists 2|]. vm_compute. discriminate.
Defined.

(** C9, counterexample.  Tab 5 is registered, and 250 ms later registered
    again (the window gets the focus back): its timestamp is written while
    it is, and stays, the current and pending tab. *)
Lemma active_timestamp_rewritten :
  reachable (run new [Register 5 0])
  ∧ current (run new [Register 5 0]) = 5
  ∧ cache (run new [Register 5 0]) !! 5 = None
  ∧ current (step (run new [Register 5 0]) (Register 5 250)) = 5
  ∧ lastVisited (step (run new [Register 5 0]) (Register 5 250)) = Some 5
  ∧ cache (step (run new [Register 5 0]) (Register 5 250)) !! 5 = Some 2
  ∧ ¬ (∀ s c x, reachable s → writes s (step s c) x →
                current (step s c) ≠ x).
Proof.
  assert (reachable (run new [Register 5 0])) as Hr
    by (by exists [Register 5 0]).
  repeat split; try done.
  intros Hclaim.
  apply (Hclaim (run new [Register 5 0]) (Register 5 250) 5 Hr); [|done].
  split; [by exists 2|]. vm_compute. discriminate.
Qed.

(** ** Coherence *)

Lemma coherent_register tabId currentTime s :
  coherent (register tabId currentTime s).
Proof.
  unfold coherent, register. simpl.
  destruct (jumpList s) as [jl|]; [|done].
  unfold TabJumpList.isCoherent. by case_bool_decide.
Qed.

Lemma coherent_deregister tabId s :
  coherent s → coherent (deregister tabId s).
Proof.
  unfold coherent, deregister. simpl.
  destruct (jumpList s) as [jl|]; [|done].
  unfold TabJumpList.deregister. by case_bool_decide.
Qed.

Lemma register_incoherent tabId currentTime s :
  anchor s ≠ Some tabId → jumpList (register tabId currentTime s) = None.
Proof.
  unfold anchor, register. simpl.
  destruct (jumpList s) as [jl|]; [|done].
  intros Hne. unfold TabJumpList.isCoherent. by rewrite bool_decide_eq_false_2.
Qed.

Lemma deregister_anchor tabId s :
  anchor s = Some tabId → jumpList (deregister tabId s) = None.
Proof.
  unfold anchor, deregister. simpl.
  destruct (jumpList s) as [jl|]; [|done].
  intros He. unfold TabJumpList.deregister. by rewrite bool_decide_eq_true_2.
Qed.

(** A jump command moves [activeIdx] to the tab it selects before the
    browser reports the activation: until the [register] of that activation
    the tab at [activeIdx] is the one selected, not yet the current one, and
    a [deregister] of another tab in between leaves it so.  The [register]
    of the selected tab makes the two agree again. *)
Example coherence_between_jump_and_activation :
  let s := run new [Register 1 0; Register 2 300; Register 3 600; JumpBack] in
  anchor s = Some 2 ∧ current s = 3
  ∧ anchor (deregister 1 s) = Some 2 ∧ current (deregister 1 s) = 3
  ∧ anchor (register 2 700 s) = Some 2 ∧ current (register 2 700 s) = 2.
Proof. vm_compute. done. Qed.

Lemma coherent_events es : ∀ s,
  coherent s → forallb is_event es = true → coherent (run s es).
Proof.
  induction es as [|c es IH]; intros s Hs Hev; [done|].
  simpl in Hev. apply andb_prop in Hev as [Hc Hev].
  simpl. apply IH; [|done].
  destruct c; simpl in *; try done.
  - apply coherent_register.
  - by apply coherent_deregister.
Qed.

(** C1.  A live jump list has the current tab at its [activeIdx]
    - after every sequence of [register] and [deregister] calls from the
      initial state;
    - after every [register] call, in whatever state it is made, so also in
      the states reached through jump commands: [register] sets the current
      tab and keeps the jump list only when that tab is the one at
      [activeIdx];
    - after every [deregister] call made in a state where it holds;
    - hence, from any state, after a [register] call followed by any
      sequence of [register] and [deregister] calls.
    Registering a tab that is not the one at [activeIdx] sets [jumpList] to
    null, and so does deregistering the tab at [activeIdx]. *)
Theorem coherence_invariant :
  (∀ cs, forallb is_event cs = true → coherent (run new cs))
  ∧ (∀ s cs, coherent s → forallb is_event cs = true → coherent (run s cs))
  ∧ (∀ s tabId currentTime,
       anchor s ≠ Some tabId →
       jumpList (register tabId currentTime s) = None)
  ∧ (∀ s tabId,
       anchor s = Some tabId → jumpList (deregister tabId s) = None)
  ∧ (∀ s tabId currentTime,
       current (register tabId currentTime s) = tabId
       ∧ coherent (register tabId currentTime s)
       ∧ (jumpList (register tabId currentTime s) ≠ None →
          anchor (register tabId currentTime s) = Some tabId))
  ∧ (∀ s tabId, coherent s → coherent (deregister tabId s))
  ∧ (∀ s tabId currentTime es,
       forallb is_event es = true →
       coherent (run s (Register tabId currentTime :: es))).
Proof.
  split; [intros cs; by apply coherent_events|].
  split; [intros s cs; apply coherent_events|].
  split; [intros s tabId currentTime; apply register_incoherent|].
  split; [intros s tabId; apply deregister_anchor|].
  split; [|split].
  - intros s tabId currentTime. split; [done|].
    pose proof (coherent_register tabId currentTime s) as Hc.
    split; [exact Hc|].
    unfold coherent, anchor in *.
    destruct (jumpList (register tabId currentTime s)); [|done].
    intros _. exact Hc.
  - intros s tabId. apply coherent_deregister.
  - intros s tabId currentTime es Hev.
    change (run s (Register tabId currentTime :: es))
      with (run (register tabId currentTime s) es).
    apply coherent_events; [apply coherent_register|done].
Qed.

Lemma coherence_invariant_witness :
  let s0 := run new [Register 1 0; Register 2 300; Register 3 600;
                     JumpBack] in
  let s := run new [Register 1 0; Register 2 300; Register 3 600;
                    JumpBack; Register 2 700] in
  coherent s
  ∧ anchor s = Some 2
  ∧ coherent (run s [Deregister 1; Register 2 1000])
  ∧ anchor (run s [Deregister 1; Register 2 1000]) = Some 2
  ∧ jumpList (register 3 1000 s) = None
  ∧ jumpList (deregister 2 s) = None
  ∧ ¬ coherent s0
  ∧ coherent (run s0 [Register 2 700; Deregister 1; Register 2 1000])
  ∧ anchor (run s0 [Register 2 700; Deregister 1; Register 2 1000]) = Some 2
  ∧ anchor (register 2 700 s0) = Some 2
  ∧ coherent (deregister 1 s).
Proof.
  intros s0 s.
  destruct coherence_invariant
    as (_ & Hrun & Hreg & Hdereg & Hafter & Hkeep & Hseq).
  assert (coherent s) as Hs by (vm_compute; reflexivity).
  split; [exact Hs|]. split; [reflexivity|].
  split; [apply Hrun; [exact Hs|reflexivity]|]. split; [reflexivity|].
  split; [apply Hreg; vm_compute; congruence|].
  split; [apply Hdereg; reflexivity|].
  split; [vm_compute; congruence|].
  split; [apply (Hseq s0 2 700 [Deregister 1; Register 2 1000]); reflexivity|].
  split; [reflexivity|].
  split; [apply (Hafter s0 2 700); vm_compute; congruence|].
  apply Hkeep. exact Hs.
Defined.

(** ** The jump commands *)

(** Both commands select whatever their step yields. *)
Lemma jumpBackTab_selects s :
  snd (jumpBackTab s) = [ChromeTabsGet (jumpBackTarget s)].
Proof. by rewrite jumpBackTab_eq. Qed.

Lemma jumpForwardTab_selects s :
  snd (jumpForwardTab s) = [ChromeTabsGet (jumpForwardTarget s)].
Proof.
  destruct (jumpList s) as [jl|] eqn:E.
  - by rewrite (jumpForwardTab_eq s jl E).
  - by rewrite (jumpForwardTab_none s E).
Qed.

(** C3, as the code has it.  When the step of a jump command yields [-1],
    the command leaves the current tab and the cache as they are, and it
    still calls [selectSpecificTab], once: the call is not conditional. *)
Theorem boundary_jump_still_selects (s : t) :
  (jumpBackTarget s = Some (-1) →
     (∃ tabId, snd (jumpBackTab s) = selectSpecificTab tabId)
     ∧ current (fst (jumpBackTab s)) = current s
     ∧ cache (fst (jumpBackTab s)) = cache s)
  ∧ (jumpForwardTarget s = Some (-1) →
       (∃ tabId, snd (jumpForwardTab s) = selectSpecificTab tabId)
       ∧ current (fst (jumpForwardTab s)) = current s
       ∧ cache (fst (jumpForwardTab s)) = cache s).
Proof.
  split; intros _.
  - rewrite jumpBackTab_eq. simpl. eauto.
  - destruct (jumpList s) as [jl|] eqn:E.
    + rewrite (jumpForwardTab_eq s jl E). simpl. eauto.
    + rewrite (jumpForwardTab_none s E). simpl. eauto.
Qed.

Lemma boundary_jump_still_selects_witness :
  ((∃ tabId, snd (jumpBackTab new) = selectSpecificTab tabId)
   ∧ current (fst (jumpBackTab new)) = current new
   ∧ cache (fst (jumpBackTab new)) = cache new)
  ∧ ((∃ tabId, snd (jumpForwardTab new) = selectSpecificTab tabId)
     ∧ current (fst (jumpForwardTab new)) = current new
     ∧ cache (fst (jumpForwardTab new)) = cache new).
Proof.
  destruct (boundary_jump_still_selects new) as [Hback Hforward].
  split; [apply Hback|apply Hforward]; reflexivity.
Defined.

(** C3, counterexample.  Tabs 1 and 2 are visited and the user jumps back
    to tab 1, the oldest: a second jump back finds no tab, and asks the
    browser for tab [-1].  Likewise for a jump forward from the newest
    tab. *)
Lemma boundary_jump_selects :
  jumpBackTarget
    (run new [Register 1 0; Register 2 300; JumpBack; Register 1 400])
  = Some (-1)
  ∧ snd (jumpBackTab
           (run new [Register 1 0; Register 2 300; JumpBack; Register 1 400]))
    = [ChromeTabsGet (Some (-1))]
  ∧ jumpForwardTarget
      (run new [Register 1 0; Register 2 300; JumpBack; Register 1 400;
                JumpForward; Register 2 500])
    = Some (-1)
  ∧ snd (jumpForwardTab
           (run new [Register 1 0; Register 2 300; JumpBack; Register 1 400;
                     JumpForward; Register 2 500]))
    = [ChromeTabsGet (Some (-1))].
Proof. repeat split; vm_compute; reflexivity. Qed.

Lemma js_index_last (l : list Z) :
  js_index l (Z.of_nat (length l) - 1) = last l.
Proof.
  unfold js_index. destruct l as [|x l]; [done|].
  rewrite decide_True by (simpl; lia). rewrite last_lookup.
  f_equal. simpl. lia.
Qed.

(** C4, as the code has it.  With no live jump list, [jumpBackTab] builds
    a new one, with no tombstone and [activeIdx] at the last index, and
    steps it.  Its array is empty when the ranking is empty; otherwise it
    is the reversed ranking (oldest first), followed by the current tab
    unless that is already its last element, so that the current tab is
    the last element and the one at [activeIdx]. *)
Theorem lazy_snapshot (s : t) :
  jumpList s = None →
  jumpBackList s = TabJumpList.new (TabJumpList.tabs (jumpBackList s))
  ∧ jumpList (fst (jumpBackTab s))
    = Some (snd (TabJumpList.getJumpBackTabId (jumpBackList s)))
  ∧ (getTabsByRecency s = [] →
       TabJumpList.tabs (jumpBackList s) = []
       ∧ TabJumpList.activeIdx (jumpBackList s) = -1)
  ∧ (getTabsByRecency s ≠ [] →
       TabJumpList.tabs (jumpBackList s)
       = reverse (getTabsByRecency s)
         ++ (if decide (last (reverse (getTabsByRecency s))
                        = Some (current s))
             then [] else [current s])
       ∧ last (TabJumpList.tabs (jumpBackList s)) = Some (current s)
       ∧ TabJumpList.activeTab (jumpBackList s) = Some (current s)).
Proof.
  intros Hnone. unfold jumpBackList. rewrite Hnone.
  split; [done|]. split.
  { rewrite jumpBackTab_eq. simpl. unfold jumpBackList. by rewrite Hnone. }
  unfold TabJumpList.activeTab. simpl. rewrite js_index_last.
  unfold jumpBackTabs. cbv zeta. rewrite js_index_last.
  split.
  - intros ->. by rewrite decide_False by (simpl; lia).
  - intros Hne.
    assert (0 < Z.of_nat (length (reverse (getTabsByRecency s)))) as Hlen.
    { rewrite length_reverse. destruct (getTabsByRecency s); [done|simpl; lia]. }
    destruct (decide (last (reverse (getTabsByRecency s)) = Some (current s)))
      as [Hlast|Hlast].
    + rewrite decide_False by tauto. by rewrite app_nil_r.
    + rewrite decide_True by tauto. by rewrite last_snoc.
Qed.

Lemma lazy_snapshot_witness :
  let s := run new [Register 1 0; Register 2 300; Register 3 600] in
  getTabsByRecency s = [2; 1]
  ∧ TabJumpList.tabs (jumpBackList s) = [1; 2; 3]
  ∧ last (TabJumpList.tabs (jumpBackList s)) = Some 3
  ∧ TabJumpList.activeTab (jumpBackList s) = Some 3.
Proof.
  intros s. split; [vm_compute; reflexivity|].
  destruct (lazy_snapshot s) as (_ & _ & _ & Hcons); [reflexivity|].
  destruct Hcons as (Htabs & Hlast & Hactive); [vm_compute; congruence|].
  split; [rewrite Htabs; vm_compute; reflexivity|].
  split; [exact Hlast|exact Hactive].
Defined.

(** C4, counterexample.  Tab 7 has just been activated and no tab is
    credited yet: the jump list built is empty, its [activeIdx] is [-1],
    and the current tab is not in it. *)
Lemma snapshot_of_empty_ranking :
  jumpList (run new [Register 7 0]) = None
  ∧ current (run new [Register 7 0]) = 7
  ∧ getTabsByRecency (run new [Register 7 0]) = []
  ∧ TabJumpList.tabs (jumpBackList (run new [Register 7 0])) = []
  ∧ TabJumpList.activeIdx (jumpBackList (run new [Register 7 0])) = -1
  ∧ last (TabJumpList.tabs (jumpBackList (run new [Register 7 0])))
    ≠ Some (current (run new [Register 7 0]))
  ∧ TabJumpList.activeTab (jumpBackList (run new [Register 7 0]))
    ≠ Some (current (run new [Register 7 0]))
  ∧ jumpList (fst (jumpBackTab (run new [Register 7 0])))
    = Some (TabJumpList.new []).
Proof. repeat split; vm_compute; congruence. Qed.

(** C5, as the code has it.  Only [jumpBackTab] builds a jump list: with
    no live jump list, [jumpForwardTab] builds none and leaves the whole
    state as it is, while [jumpBackTab] installs a new jump list made from
    the current ranking, stepped once. *)
Theorem lazy_rebuild_back_only (s : t) :
  jumpList s = None →
  fst (jumpForwardTab s) = s
  ∧ jumpList (fst (jumpForwardTab s)) = None
  ∧ jumpList (fst (jumpBackTab s))
    = Some (snd (TabJumpList.getJumpBackTabId
                   (TabJumpList.new (jumpBackTabs s)))).
Proof.
  intros Hnone. rewrite (jumpForwardTab_none s Hnone). simpl.
  split; [done|]. split; [done|].
  rewrite jumpBackTab_eq. simpl. unfold jumpBackList. by rewrite Hnone.
Qed.

Lemma lazy_rebuild_back_only_witness :
  let s := run new [Register 1 0; Register 2 300] in
  fst (jumpForwardTab s) = s
  ∧ jumpList (fst (jumpForwardTab s)) = None
  ∧ jumpList (fst (jumpBackTab s))
    = Some (snd (TabJumpList.getJumpBackTabId
                   (TabJumpList.new (jumpBackTabs s)))).
Proof. intros s. apply (lazy_rebuild_back_only s). reflexivity. Defined.

(** C5, counterexample.  Tab 1 is credited and tab 2 is current, with no
    jump list: a jump forward leaves [jumpList] null, where a jump back
    installs a jump list over tabs 1 and 2. *)
Lemma jump_forward_builds_nothing :
  jumpList (run new [Register 1 0; Register 2 300]) = None
  ∧ getTabsByRecency (run new [Register 1 0; Register 2 300]) = [1]
  ∧ jumpList (fst (jumpForwardTab (run new [Register 1 0; Register 2 300])))
    = None
  ∧ TabJumpList.tabs
      <$> jumpList (fst (jumpBackTab (run new [Register 1 0; Register 2 300])))
    = Some [1; 2].
Proof. repeat split; vm_compute; reflexivity. Qed.

End Tracker.

(** * More on the jump list *)

Section JumpListSteps.
Import TabJumpList.

Lemma jl_at_activeIdx jl : jl_at jl (activeIdx jl) = jl.
Proof. by destruct jl. Qed.

Lemma jl_live_not_deleted jl i :
  jl_live jl i → deleted jl (js_index (tabs jl) i) = false.
Proof.
  intros (id & -> & Hid). simpl. by apply bool_decide_eq_false.
Qed.

Lemma jl_live_range jl i :
  jl_live jl i → 0 ≤ i < Z.of_nat (length (tabs jl)).
Proof.
  intros (id & Hidx & _). unfold js_index in Hidx.
  case_decide; [|done]. apply lookup_lt_Some in Hidx. lia.
Qed.

(** The scans depend on the array and the tombstones only. *)
Lemma scanBack_jl_at jl a n : scanBack (jl_at jl a) n = scanBack jl n.
Proof. induction n as [|n IH]; simpl; [done|]. by rewrite IH. Qed.

Lemma scanForward_jl_at jl a fuel i :
  scanForward (jl_at jl a) fuel i = scanForward jl fuel i.
Proof.
  revert i. induction fuel as [|fuel IH]; intros i; simpl; [done|].
  by rewrite IH.
Qed.

(** What the backward scan computes: the greatest index below [n] whose
    slot is not skipped. *)
Lemma scanBack_first jl n c :
  0 ≤ c < Z.of_nat n →
  deleted jl (js_index (tabs jl) c) = false →
  (∀ j, c < j < Z.of_nat n → deleted jl (js_index (tabs jl) j) = true) →
  scanBack jl n = c.
Proof.
  induction n as [|n IH]; intros Hc Hlive Hskip; [lia|]. simpl.
  destruct (decide (c = Z.of_nat n)) as [->|Hne].
  - by rewrite Hlive.
  - rewrite Hskip by lia. apply IH; [lia|done|]. intros j Hj. apply Hskip. lia.
Qed.

Lemma scanBack_skipped jl n :
  ∀ j, scanBack jl n < j < Z.of_nat n →
       deleted jl (js_index (tabs jl) j) = true.
Proof.
  induction n as [|n IH]; simpl; intros j Hj.
  - destruct (scanBack_range jl 0); simpl in *; lia.
  - destruct (deleted jl (js_index (tabs jl) (Z.of_nat n))) eqn:E; [|lia].
    destruct (decide (j = Z.of_nat n)) as [->|Hne]; [done|].
    apply IH. lia.
Qed.

(** The forward scan: the least index from [i] on whose slot is not
    skipped. *)
Lemma scanForward_first jl fuel i c :
  i ≤ c < i + Z.of_nat fuel →
  deleted jl (js_index (tabs jl) c) = false →
  (∀ j, i ≤ j < c → deleted jl (js_index (tabs jl) j) = true) →
  scanForward jl fuel i = c.
Proof.
  revert i. induction fuel as [|fuel IH]; intros i Hc Hlive Hskip; [lia|].
  simpl. destruct (decide (c = i)) as [->|Hne].
  - by rewrite Hlive.
  - rewrite Hskip by lia. apply IH; [lia|done|]. intros j Hj. apply Hskip. lia.
Qed.

Lemma scanForward_skipped jl fuel i :
  0 ≤ i →
  scanForward jl fuel i ≠ -1 →
  ∀ j, i ≤ j < scanForward jl fuel i →
       deleted jl (js_index (tabs jl) j) = true.
Proof.
  revert i. induction fuel as [|fuel IH]; simpl; intros i Hi Hfound j Hj.
  - done.
  - destruct (deleted jl (js_index (tabs jl) i)) eqn:E; [|lia].
    destruct (decide (j = i)) as [->|Hne]; [done|].
    apply (IH (i + 1)); [lia|done|lia].
Qed.

Lemma getJumpBackTabId_found jl i :
  jl_wf jl →
  0 ≤ i < activeIdx jl →
  deleted jl (js_index (tabs jl) i) = false →
  (∀ j, i < j < activeIdx jl → deleted jl (js_index (tabs jl) j) = true) →
  getJumpBackTabId jl = (js_index (tabs jl) i, jl_at jl i).
Proof.
  intros Hwf Hi Hlive Hskip. unfold getJumpBackTabId.
  rewrite (scanBack_first jl _ i); [|lia|done|intros j Hj; apply Hskip; lia].
  by rewrite decide_False by lia.
Qed.

Lemma getJumpForwardTabId_found jl i :
  jl_wf jl →
  activeIdx jl < i < Z.of_nat (length (tabs jl)) →
  deleted jl (js_index (tabs jl) i) = false →
  (∀ j, activeIdx jl < j < i → deleted jl (js_index (tabs jl) j) = true) →
  getJumpForwardTabId jl = (js_index (tabs jl) i, jl_at jl i).
Proof.
  intros Hwf Hi Hlive Hskip. unfold getJumpForwardTabId. cbv zeta.
  unfold jl_wf in Hwf.
  rewrite (scanForward_first jl _ _ i);
    [|lia|done|intros j Hj; apply Hskip; lia].
  by rewrite decide_False by lia.
Qed.

(** X1.  [getJumpBackTabId] moves to the nearest live slot below
    [activeIdx]: when slot [i] is live and every slot between it and
    [activeIdx] is tombstoned, the step returns the tab of slot [i] and
    sets [activeIdx] to [i], changing nothing else. *)
Theorem getJumpBackTabId_nearest (jl : t) (i : Z) :
  jl_wf jl →
  0 ≤ i < activeIdx jl →
  jl_live jl i →
  (∀ j, i < j < activeIdx jl → ¬ jl_live jl j) →
  getJumpBackTabId jl = (js_index (tabs jl) i, jl_at jl i)
  ∧ ∃ id, js_index (tabs jl) i = Some id ∧ id ∉ deletedTabs jl.
Proof.
  intros Hwf Hi Hlive Hskip. split; [|exact Hlive].
  apply getJumpBackTabId_found; [done|done|by apply jl_live_not_deleted|].
  intros j Hj. unfold jl_wf in Hwf.
  apply deleted_not_live; [lia|]. by apply Hskip.
Qed.

Lemma getJumpBackTabId_nearest_witness :
  let jl := {| tabs := [1; 2; 3; 4]; activeIdx := 3; deletedTabs := {[ 3 ]} |} in
  getJumpBackTabId jl = (Some 2, jl_at jl 1)
  ∧ ∃ id, js_index (tabs jl) 1 = Some id ∧ id ∉ deletedTabs jl.
Proof.
  intros jl. apply (getJumpBackTabId_nearest jl 1).
  - unfold jl_wf. simpl. lia.
  - simpl. lia.
  - exists 2. split; [reflexivity|]. simpl. set_solver.
  - simpl. intros j Hj (id & Hidx & Hlive).
    assert (j = 2) as -> by lia. injection Hidx as <-.
    apply Hlive. set_solver.
Defined.

(** X2.  [getJumpForwardTabId] moves to the nearest live slot above
    [activeIdx]. *)
Theorem getJumpForwardTabId_nearest (jl : t) (i : Z) :
  jl_wf jl →
  activeIdx jl < i →
  jl_live jl i →
  (∀ j, activeIdx jl < j < i → ¬ jl_live jl j) →
  getJumpForwardTabId jl = (js_index (tabs jl) i, jl_at jl i)
  ∧ ∃ id, js_index (tabs jl) i = Some id ∧ id ∉ deletedTabs jl.
Proof.
  intros Hwf Hi Hlive Hskip. split; [|exact Hlive].
  pose proof (jl_live_range jl i Hlive) as Hrange.
  apply getJumpForwardTabId_found;
    [done|lia|by apply jl_live_not_deleted|].
  intros j Hj. unfold jl_wf in Hwf.
  apply deleted_not_live; [lia|]. by apply Hskip.
Qed.

Lemma getJumpForwardTabId_nearest_witness :
  let jl := {| tabs := [1; 2; 3; 4]; activeIdx := 0; deletedTabs := {[ 2 ]} |} in
  getJumpForwardTabId jl = (Some 3, jl_at jl 2)
  ∧ ∃ id, js_index (tabs jl) 2 = Some id ∧ id ∉ deletedTabs jl.
Proof.
  intros jl. apply (getJumpForwardTabId_nearest jl 2).
  - unfold jl_wf. simpl. lia.
  - simpl. lia.
  - exists 3. split; [reflexivity|]. simpl. set_solver.
  - simpl. intros j Hj (id & Hidx & Hlive).
    assert (j = 1) as -> by lia. injection Hidx as <-.
    apply Hlive. set_solver.
Defined.

Lemma js_index_is_Some (l : list Z) i :
  0 ≤ i < Z.of_nat (length l) → is_Some (js_index l i).
Proof.
  intros Hi. unfold js_index. rewrite decide_True by lia.
  apply lookup_lt_is_Some_2. lia.
Qed.

Lemma getJumpBackTabId_defined jl :
  jl_wf jl → is_Some (fst (getJumpBackTabId jl)).
Proof.
  intros Hwf. unfold getJumpBackTabId, jl_wf in *.
  destruct (scanBack_range jl (Z.to_nat (activeIdx jl))) as [E|[E _]];
    case_decide; simpl; try done.
  apply js_index_is_Some. lia.
Qed.

Lemma getJumpForwardTabId_defined jl :
  jl_wf jl → is_Some (fst (getJumpForwardTabId jl)).
Proof.
  intros Hwf. unfold getJumpForwardTabId, jl_wf in *. cbv zeta.
  destruct (scanForward_range jl
              (Z.to_nat (Z.of_nat (length (tabs jl)) - (activeIdx jl + 1)))
              (activeIdx jl + 1)) as [E|[E _]]; [lia| |];
    case_decide; simpl; try done.
  apply js_index_is_Some. lia.
Qed.

(** X3.  A step back followed by a step forward is a round trip: in a jump
    list whose active slot is live and that has a live slot below it, the
    step forward after the step back returns the tab that was active and
    leaves the jump list exactly as it was before the two steps. *)
Theorem back_then_forward (jl : t) :
  jl_wf jl →
  jl_live jl (activeIdx jl) →
  (∃ i, 0 ≤ i < activeIdx jl ∧ jl_live jl i) →
  getJumpForwardTabId (snd (getJumpBackTabId jl)) = (activeTab jl, jl).
Proof.
  intros Hwf Hactive (i & Hi & Hlive).
  pose proof (jl_live_range jl _ Hactive) as Hrange.
  pose proof (scanBack_skipped jl (Z.to_nat (activeIdx jl))) as Hskip.
  assert (getJumpBackTabId jl
          = (js_index (tabs jl) (scanBack jl (Z.to_nat (activeIdx jl))),
             jl_at jl (scanBack jl (Z.to_nat (activeIdx jl))))
          ∧ 0 ≤ scanBack jl (Z.to_nat (activeIdx jl)) < activeIdx jl)
    as [-> Hc].
  { unfold getJumpBackTabId.
    destruct (scanBack_range jl (Z.to_nat (activeIdx jl))) as [E|[E _]].
    - pose proof (jl_live_not_deleted jl i Hlive) as Hnd.
      rewrite Hskip in Hnd by lia. done.
    - rewrite decide_False by lia. split; [done|lia]. }
  simpl.
  rewrite (getJumpForwardTabId_found _ (activeIdx jl)).
  - unfold activeTab, jl_at. simpl. by destruct jl.
  - unfold jl_wf in *. simpl. lia.
  - simpl. lia.
  - by apply jl_live_not_deleted.
  - simpl. intros j Hj. apply Hskip. lia.
Qed.

Lemma back_then_forward_witness :
  let jl := {| tabs := [1; 2; 3; 4]; activeIdx := 3; deletedTabs := {[ 3 ]} |} in
  fst (getJumpBackTabId jl) = Some 2
  ∧ getJumpForwardTabId (snd (getJumpBackTabId jl)) = (Some 4, jl).
Proof.
  intros jl. split; [reflexivity|].
  apply (back_then_forward jl).
  - unfold jl_wf. simpl. lia.
  - exists 4. split; [reflexivity|]. simpl. set_solver.
  - exists 1. split; [simpl; lia|].
    exists 2. split; [reflexivity|]. simpl. set_solver.
Defined.

Lemma scanForward_none_inv jl fuel i :
  0 ≤ i →
  scanForward jl fuel i = -1 →
  ∀ j, i ≤ j < i + Z.of_nat fuel → deleted jl (js_index (tabs jl) j) = true.
Proof.
  revert i. induction fuel as [|fuel IH]; simpl; intros i Hi Hnone j Hj; [lia|].
  destruct (deleted jl (js_index (tabs jl) i)) eqn:E; [|lia].
  destruct (decide (j = i)) as [->|Hne]; [done|].
  apply (IH (i + 1)); [lia|done|lia].
Qed.

(** X4.  A step forward followed by a step back is a round trip as well:
    in a jump list whose active slot is live and that has a live slot above
    it, the step back after the step forward returns the tab that was
    active and restores the jump list. *)
Theorem forward_then_back (jl : t) :
  jl_wf jl →
  jl_live jl (activeIdx jl) →
  (∃ i, activeIdx jl < i ∧ jl_live jl i) →
  getJumpBackTabId (snd (getJumpForwardTabId jl)) = (activeTab jl, jl).
Proof.
  intros Hwf Hactive (i & Hi & Hlive).
  pose proof (jl_live_range jl _ Hactive) as Hrange.
  pose proof (jl_live_range jl _ Hlive) as Hirange.
  set (fuel := Z.to_nat (Z.of_nat (length (tabs jl)) - (activeIdx jl + 1))).
  set (c := scanForward jl fuel (activeIdx jl + 1)).
  assert (activeIdx jl + 1 ≤ c < Z.of_nat (length (tabs jl))) as Hc.
  { destruct (scanForward_range jl fuel (activeIdx jl + 1)) as [E|[E _]];
      [lia| |fold c in E; lia].
    pose proof (jl_live_not_deleted jl i Hlive) as Hnd.
    rewrite (scanForward_none_inv jl fuel (activeIdx jl + 1)) in Hnd;
      [done|lia|done|lia]. }
  assert (getJumpForwardTabId jl = (js_index (tabs jl) c, jl_at jl c)) as ->.
  { unfold getJumpForwardTabId. cbv zeta. fold fuel. fold c.
    by rewrite decide_False by lia. }
  simpl.
  rewrite (getJumpBackTabId_found _ (activeIdx jl)).
  - unfold activeTab, jl_at. simpl. by destruct jl.
  - unfold jl_wf in *. simpl. lia.
  - simpl. lia.
  - by apply jl_live_not_deleted.
  - simpl. intros j Hj.
    apply (scanForward_skipped jl fuel (activeIdx jl + 1)); fold c; lia.
Qed.

Lemma forward_then_back_witness :
  let jl := {| tabs := [1; 2; 3; 4]; activeIdx := 0; deletedTabs := {[ 2 ]} |} in
  fst (getJumpForwardTabId jl) = Some 3
  ∧ getJumpBackTabId (snd (getJumpForwardTabId jl)) = (Some 1, jl).
Proof.
  intros jl. split; [reflexivity|].
  apply (forward_then_back jl).
  - unfold jl_wf. simpl. lia.
  - exists 1. split; [reflexivity|]. simpl. set_solver.
  - exists 2. split; [simpl; lia|].
    exists 3. split; [reflexivity|]. simpl. set_solver.
Defined.

End JumpListSteps.

(** * More on the ranking *)

Section SortedLists.
Context {A : Type}.

Lemma StronglySorted_weaken (R R' : relation A) (l : list A) :
  NoDup l →
  (∀ x y, x ∈ l → y ∈ l → x ≠ y → R x y → R' x y) →
  StronglySorted R l → StronglySorted R' l.
Proof.
  intros Hnd Himpl Hs. induction Hs as [|x l Hl IH Hx]; [constructor|].
  apply NoDup_cons in Hnd as [Hx_notin Hnd]. constructor.
  - apply IH; [done|]. intros y z Hy Hz. apply Himpl; by right.
  - rewrite Forall_forall in Hx |- *. intros y Hy.
    apply Himpl; [by left|by right| |by apply Hx].
    intros ->. done.
Qed.

Lemma StronglySorted_filter (R : relation A) (P : A → Prop)
    `{∀ x, Decision (P x)} (l : list A) :
  StronglySorted R l → StronglySorted R (filter P l).
Proof.
  induction 1 as [|x l Hl IH Hx]; [constructor|].
  rewrite filter_cons. case_decide; [|done]. constructor; [done|].
  rewrite Forall_forall in Hx |- *. intros y Hy.
  apply list_elem_of_filter in Hy as [_ Hy]. by apply Hx.
Qed.
End SortedLists.

Section RankingUpdates.
Import TabRecency.

Lemma NoDup_getTabsByRecency s : NoDup (getTabsByRecency s).
Proof. rewrite getTabsByRecency_perm. apply NoDup_object_keys. Qed.

(** With pairwise distinct timestamps the ranking is the only list of the
    keys of the cache that is sorted by timestamp. *)
Lemma ranking_unique s l :
  tracker_inv s →
  NoDup l →
  (∀ x, x ∈ l ↔ is_Some (cache s !! x)) →
  StronglySorted (λ a b, cacheAt s b ≤ cacheAt s a) l →
  l = getTabsByRecency s.
Proof.
  intros Hinv Hnd Hin Hsorted.
  apply (StronglySorted_unique_strong (λ a b, cacheAt s b ≤ cacheAt s a));
    [|done|apply getTabsByRecency_sorted|].
  - intros x1 x2 H1 H2 Hle1 Hle2.
    apply Hin in H1 as [v1 Hv1].
    apply elem_of_getTabsByRecency in H2 as [v2 Hv2].
    unfold cacheAt in Hle1, Hle2. rewrite Hv1, Hv2 in Hle1, Hle2.
    simpl in *. assert (v1 = v2) as -> by lia.
    by apply (inv_distinct s Hinv x1 x2 v2).
  - apply NoDup_Permutation; [done|apply NoDup_getTabsByRecency|].
    intros x. by rewrite Hin, elem_of_getTabsByRecency.
Qed.

(** X5.  In every state the singleton reaches the ranking has no ties: the
    timestamps strictly decrease along [getTabsByRecency], and each lies
    between 2 and the clock. *)
Theorem ranking_strict (s : t) :
  reachable s →
  StronglySorted (λ a b, cacheAt s b < cacheAt s a) (getTabsByRecency s)
  ∧ ∀ x, x ∈ getTabsByRecency s → 1 < cacheAt s x ≤ timestamp s.
Proof.
  intros Hr. pose proof (reachable_inv s Hr) as Hinv. split.
  - apply (StronglySorted_weaken (λ a b, cacheAt s b ≤ cacheAt s a));
      [apply NoDup_getTabsByRecency| |apply getTabsByRecency_sorted].
    intros x y Hx Hy Hne Hle.
    apply elem_of_getTabsByRecency in Hx as [vx Hvx].
    apply elem_of_getTabsByRecency in Hy as [vy Hvy].
    unfold cacheAt in *. rewrite Hvx, Hvy in *. simpl in *.
    destruct (decide (vx = vy)) as [->|]; [|lia].
    destruct Hne. by apply (inv_distinct s Hinv x y vy).
  - intros x Hx. apply elem_of_getTabsByRecency in Hx as [v Hv].
    unfold cacheAt. rewrite Hv. simpl. by apply (inv_clock s Hinv x).
Qed.

Lemma ranking_strict_witness :
  let s := run new [Register 1 0; Register 2 300; Register 1 600;
                    Register 3 900] in
  StronglySorted (λ a b, cacheAt s b < cacheAt s a) (getTabsByRecency s)
  ∧ ∀ x, x ∈ getTabsByRecency s → 1 < cacheAt s x ≤ timestamp s.
Proof.
  intros s. apply (ranking_strict s).
  by exists [Register 1 0; Register 2 300; Register 1 600; Register 3 900].
Defined.

(** X6.  Closing a tab takes it out of the ranking and keeps the order of
    the others: after [deregister(tabId)] the ranking is the old one
    without [tabId]. *)
Theorem ranking_deregister (s : t) (tabId : Z) :
  reachable s →
  getTabsByRecency (deregister tabId s)
  = filter (λ x, x ≠ tabId) (getTabsByRecency s).
Proof.
  intros Hr. pose proof (reachable_inv s Hr) as Hinv. symmetry.
  apply ranking_unique.
  - by apply tracker_inv_deregister.
  - apply NoDup_filter, NoDup_getTabsByRecency.
  - intros x. rewrite list_elem_of_filter, elem_of_getTabsByRecency. simpl.
    rewrite lookup_delete_is_Some. intuition congruence.
  - apply (StronglySorted_weaken (λ a b, cacheAt s b ≤ cacheAt s a)).
    + apply NoDup_filter, NoDup_getTabsByRecency.
    + intros x y Hx Hy _.
      apply list_elem_of_filter in Hx as [Hx _].
      apply list_elem_of_filter in Hy as [Hy _].
      unfold cacheAt. simpl. by rewrite !lookup_delete_ne.
    + apply StronglySorted_filter, getTabsByRecency_sorted.
Qed.

Lemma ranking_deregister_witness :
  getTabsByRecency
    (deregister 2 (run new [Register 1 0; Register 2 300; Register 3 600;
                            Register 4 900]))
  = filter (λ x, x ≠ 2)
      (getTabsByRecency (run new [Register 1 0; Register 2 300;
                                  Register 3 600; Register 4 900])).
Proof.
  apply ranking_deregister.
  by exists [Register 1 0; Register 2 300; Register 3 600; Register 4 900].
Defined.

(** X7.  Crediting moves to the front: when [register] is called after the
    pending tab has dwelled for [TIME_DELTA] ms, that tab becomes the first
    of the ranking and the other tabs keep their order. *)
Theorem ranking_credit (s : t) (tabId currentTime visited since : Z) :
  reachable s →
  lastVisited s = Some visited →
  lastVisitedTime s = Some since →
  TIME_DELTA ≤ currentTime - since →
  getTabsByRecency (register tabId currentTime s)
  = visited :: filter (λ x, x ≠ visited) (getTabsByRecency s).
Proof.
  intros Hr Hv Ht Hle. pose proof (reachable_inv s Hr) as Hinv.
  assert (dwelled s currentTime = true) as Hd
    by (apply dwelled_true; eauto).
  destruct (register_credit tabId currentTime s visited Hd Hv) as [_ Hc].
  assert (∀ x, x ≠ visited →
               cacheAt (register tabId currentTime s) x = cacheAt s x) as Hsame.
  { intros x Hx. unfold cacheAt. rewrite Hc. by rewrite lookup_insert_ne. }
  assert (cacheAt (register tabId currentTime s) visited = timestamp s + 1)
    as Hnew.
  { unfold cacheAt. rewrite Hc. by rewrite lookup_insert_eq. }
  symmetry. apply ranking_unique.
  - by apply tracker_inv_register.
  - apply NoDup_cons. split.
    + rewrite list_elem_of_filter. intuition congruence.
    + apply NoDup_filter, NoDup_getTabsByRecency.
  - intros x.
    rewrite elem_of_cons, list_elem_of_filter, elem_of_getTabsByRecency, Hc.
    rewrite lookup_insert_is_Some.
    destruct (decide (x = visited)); intuition congruence.
  - constructor.
    + apply (StronglySorted_weaken (λ a b, cacheAt s b ≤ cacheAt s a)).
      * apply NoDup_filter, NoDup_getTabsByRecency.
      * intros x y Hx Hy _.
        apply list_elem_of_filter in Hx as [Hx _].
        apply list_elem_of_filter in Hy as [Hy _].
        by rewrite !Hsame.
      * apply StronglySorted_filter, getTabsByRecency_sorted.
    + apply Forall_forall. intros x Hx.
      apply list_elem_of_filter in Hx as [Hx Hin].
      rewrite Hnew, Hsame by done.
      apply elem_of_getTabsByRecency in Hin as [v Hvx].
      unfold cacheAt. rewrite Hvx. simpl.
      apply (inv_clock s Hinv) in Hvx. lia.
Qed.

Lemma ranking_credit_witness :
  getTabsByRecency
    (register 3 900 (run new [Register 1 0; Register 2 300; Register 1 600]))
  = 1 :: filter (λ x, x ≠ 1)
           (getTabsByRecency
              (run new [Register 1 0; Register 2 300; Register 1 600])).
Proof.
  apply (ranking_credit _ 3 900 1 600).
  - by exists [Register 1 0; Register 2 300; Register 1 600].
  - reflexivity.
  - reflexivity.
  - unfold TIME_DELTA. lia.
Defined.

End RankingUpdates.

(** * More on the tracker *)

Section TrackerBehaviour.
Import TabRecency.

Lemma deleted_new l o : TabJumpList.deleted (TabJumpList.new l) o = false.
Proof.
  destruct o as [id|]; simpl; [|done].
  apply bool_decide_eq_false. apply not_elem_of_empty.
Qed.

(** A new jump list over at least two tabs steps back to the last but
    one. *)
Lemma getJumpBackTabId_new_snoc pre y z :
  fst (TabJumpList.getJumpBackTabId (TabJumpList.new (pre ++ [y; z])))
  = Some y.
Proof.
  assert (Z.of_nat (length (pre ++ [y; z])) - 1 = Z.of_nat (length pre) + 1)
    as Hlen by (rewrite length_app; simpl; lia).
  rewrite (getJumpBackTabId_found _ (Z.of_nat (length pre))).
  - simpl. unfold js_index. rewrite decide_True by lia.
    rewrite Nat2Z.id. by apply list_lookup_middle.
  - apply jl_wf_new.
  - simpl. lia.
  - apply deleted_new.
  - simpl. intros j Hj. lia.
Qed.

(** X8.  With no live jump list, a jump back selects the most recently
    credited tab other than the current one, and [-1] when the ranking has
    no such tab. *)
Theorem first_jump_back (s : t) :
  jumpList s = None →
  snd (jumpBackTab s)
  = [ChromeTabsGet
       (Some (default (-1)
                (head (filter (λ x, x ≠ current s) (getTabsByRecency s)))))].
Proof.
  intros Hnone. rewrite jumpBackTab_selects. do 2 f_equal.
  unfold jumpBackTarget, jumpBackList. rewrite Hnone.
  unfold jumpBackTabs. cbv zeta. rewrite js_index_last.
  pose proof (NoDup_getTabsByRecency s) as Hnd.
  destruct (getTabsByRecency s) as [|x rest]; [done|].
  rewrite reverse_cons, last_snoc.
  destruct (decide (x = current s)) as [->|Hx].
  - rewrite decide_False by tauto. rewrite filter_cons_False by tauto.
    destruct rest as [|y rest]; [done|].
    apply NoDup_cons in Hnd as [Hy _].
    assert (y ≠ current s) as Hy' by (intros ->; apply Hy; by left).
    rewrite filter_cons_True by done. simpl.
    rewrite reverse_cons, <- app_assoc. simpl.
    apply getJumpBackTabId_new_snoc.
  - rewrite decide_True.
    + rewrite filter_cons_True by done. simpl.
      rewrite <- app_assoc. simpl. apply getJumpBackTabId_new_snoc.
    + split; [rewrite length_app; simpl; lia|congruence].
Qed.

Lemma first_jump_back_witness :
  snd (jumpBackTab (run new [Register 1 0; Register 2 300; Register 3 600;
                             Register 2 900]))
  = [ChromeTabsGet (Some 3)].
Proof.
  apply (first_jump_back
           (run new [Register 1 0; Register 2 300; Register 3 600;
                     Register 2 900])).
  reflexivity.
Defined.

Lemma getJumpBackTabId_activeTab jl id :
  fst (TabJumpList.getJumpBackTabId jl) = Some id → id ≠ -1 →
  TabJumpList.activeTab (snd (TabJumpList.getJumpBackTabId jl)) = Some id.
Proof.
  unfold TabJumpList.getJumpBackTabId. case_decide; simpl; [congruence|done].
Qed.

Lemma getJumpForwardTabId_activeTab jl id :
  fst (TabJumpList.getJumpForwardTabId jl) = Some id → id ≠ -1 →
  TabJumpList.activeTab (snd (TabJumpList.getJumpForwardTabId jl)) = Some id.
Proof.
  unfold TabJumpList.getJumpForwardTabId. cbv zeta.
  case_decide; simpl; [congruence|done].
Qed.

Lemma register_coherent_keeps tabId currentTime s jl :
  jumpList s = Some jl →
  TabJumpList.activeTab jl = Some tabId →
  jumpList (register tabId currentTime s) = Some jl.
Proof.
  intros Hjl Hactive. unfold register. simpl. rewrite Hjl.
  unfold TabJumpList.isCoherent. by rewrite bool_decide_eq_true_2.
Qed.

(** X9.  The activation caused by a jump does not reset the jump list: when
    a jump command selects a tab (not [-1]), registering that tab keeps the
    jump list the command left, with that tab at [activeIdx]. *)
Theorem jump_then_activation (s : t) (tabId currentTime : Z) :
  tabId ≠ -1 →
  (jumpBackTarget s = Some tabId →
     jumpList (register tabId currentTime (fst (jumpBackTab s)))
     = jumpList (fst (jumpBackTab s))
     ∧ anchor (register tabId currentTime (fst (jumpBackTab s)))
       = Some tabId)
  ∧ (jumpForwardTarget s = Some tabId →
       jumpList (register tabId currentTime (fst (jumpForwardTab s)))
       = jumpList (fst (jumpForwardTab s))
       ∧ anchor (register tabId currentTime (fst (jumpForwardTab s)))
         = Some tabId).
Proof.
  intros Hid. split; intros Htarget.
  - assert (anchor (fst (jumpBackTab s)) = Some tabId) as Hanchor.
    { rewrite jumpBackTab_eq. unfold anchor. simpl.
      by apply getJumpBackTabId_activeTab. }
    unfold anchor in *.
    destruct (jumpList (fst (jumpBackTab s))) as [jl|] eqn:E; [|done].
    by rewrite (register_coherent_keeps _ _ _ jl E Hanchor).
  - assert (anchor (fst (jumpForwardTab s)) = Some tabId) as Hanchor.
    { unfold jumpForwardTarget in Htarget.
      destruct (jumpList s) as [jl|] eqn:E; [|congruence].
      rewrite (jumpForwardTab_eq s jl E). unfold anchor. simpl.
      by apply getJumpForwardTabId_activeTab. }
    unfold anchor in *.
    destruct (jumpList (fst (jumpForwardTab s))) as [jl|] eqn:E; [|done].
    by rewrite (register_coherent_keeps _ _ _ jl E Hanchor).
Qed.

Lemma jump_then_activation_witness :
  let s := run new [Register 1 0; Register 2 300; Register 3 600] in
  let s' := run s [JumpBack; Register 2 700] in
  (jumpList (register 2 700 (fst (jumpBackTab s)))
   = jumpList (fst (jumpBackTab s))
   ∧ anchor (register 2 700 (fst (jumpBackTab s))) = Some 2)
  ∧ (jumpList (register 3 800 (fst (jumpForwardTab s')))
     = jumpList (fst (jumpForwardTab s'))
     ∧ anchor (register 3 800 (fst (jumpForwardTab s'))) = Some 3).
Proof.
  intros s s'. split.
  - destruct (jump_then_activation s 2 700) as [Hback _]; [lia|].
    apply Hback. reflexivity.
  - destruct (jump_then_activation s' 3 800) as [_ Hforward]; [lia|].
    apply Hforward. reflexivity.
Defined.

(** X10.  The clock never goes back and is never reset: along any sequence
    of calls it does not decrease, and it advances by at most one per
    call. *)
Theorem clock_monotone (s : t) (cs : list call) :
  timestamp s ≤ timestamp (run s cs) ≤ timestamp s + Z.of_nat (length cs).
Proof.
  revert s. induction cs as [|c cs IH]; intros s; [simpl; lia|].
  change (run s (c :: cs)) with (run (step s c) cs).
  specialize (IH (step s c)).
  assert (timestamp s ≤ timestamp (step s c) ≤ timestamp s + 1) as Hstep.
  { destruct c as [tabId currentTime|tabId| |]; unfold step.
    - destruct (register_cache_cases tabId currentTime s)
        as [(-> & _)|[(-> & _)|(vis & -> & _)]]; lia.
    - simpl. lia.
    - rewrite jumpBackTab_eq. simpl. lia.
    - destruct (jumpList s) as [jl|] eqn:E.
      + rewrite (jumpForwardTab_eq s jl E). simpl. lia.
      + rewrite (jumpForwardTab_none s E). simpl. lia. }
  simpl length. lia.
Qed.

Lemma registered_cons c cs tabId :
  registered cs tabId → registered (c :: cs) tabId.
Proof. intros [time H]. exists time. by right. Qed.

Lemma registered_app cs cs' tabId :
  registered cs tabId → registered (cs ++ cs') tabId.
Proof. intros [time H]. exists time. apply elem_of_app. by left. Qed.

(** A tab that is neither in the cache nor pending stays so until it is
    registered. *)
Lemma forgotten_step s c tabId :
  (∀ currentTime, c ≠ Register tabId currentTime) →
  cache s !! tabId = None ∧ lastVisited s ≠ Some tabId →
  cache (step s c) !! tabId = None ∧ lastVisited (step s c) ≠ Some tabId.
Proof.
  intros Hc [Hcache Hlast].
  destruct c as [u currentTime|u| |]; unfold step.
  - assert (u ≠ tabId) as Hu by (intros ->; by apply (Hc currentTime)).
    split; [|simpl; congruence].
    destruct (register_cache_cases u currentTime s)
      as [(_ & -> & _)|[(_ & -> & _)|(vis & _ & -> & _ & Hvis)]]; try done.
    rewrite lookup_insert_ne; [done|congruence].
  - simpl. split.
    + apply lookup_delete_None. by right.
    + by case_bool_decide.
  - by rewrite jumpBackTab_eq.
  - destruct (jumpList s) as [jl|] eqn:E.
    + by rewrite (jumpForwardTab_eq s jl E).
    + by rewrite (jumpForwardTab_none s E).
Qed.

(** X11.  A closed tab stays out of the ranking: after [deregister(tabId)],
    whatever calls follow, as long as none registers [tabId] again the
    cache has no entry for it; in particular a tab that was pending when it
    was closed is never credited. *)
Theorem closed_tab_stays_out (s : t) (tabId : Z) (cs : list call) :
  ¬ registered cs tabId →
  cache (run (deregister tabId s) cs) !! tabId = None
  ∧ (tabId ∉ getTabsByRecency (run (deregister tabId s) cs))
  ∧ lastVisited (run (deregister tabId s) cs) ≠ Some tabId.
Proof.
  intros Hcs.
  assert (cache (run (deregister tabId s) cs) !! tabId = None
          ∧ lastVisited (run (deregister tabId s) cs) ≠ Some tabId)
    as [Hcache Hlast].
  { assert (cache (deregister tabId s) !! tabId = None
            ∧ lastVisited (deregister tabId s) ≠ Some tabId) as Hstart.
    { simpl. split; [apply lookup_delete_eq|]. by case_bool_decide. }
    revert Hstart. generalize (deregister tabId s).
    induction cs as [|c cs IH]; intros s0 Hs0; [done|].
    change (run s0 (c :: cs)) with (run (step s0 c) cs).
    apply IH.
    - intros Hr. apply Hcs. by apply registered_cons.
    - apply forgotten_step; [|done].
      intros time ->. apply Hcs. exists time. by left. }
  repeat split; try done.
  rewrite elem_of_getTabsByRecency, Hcache. by intros [? ?].
Qed.

Lemma closed_tab_stays_out_witness :
  let s := run new [Register 1 0; Register 2 300] in
  cache (run (deregister 2 s) [Register 3 900; JumpBack; Register 1 1200])
    !! 2 = None
  ∧ (2 ∉ getTabsByRecency
           (run (deregister 2 s) [Register 3 900; JumpBack; Register 1 1200]))
  ∧ lastVisited
      (run (deregister 2 s) [Register 3 900; JumpBack; Register 1 1200])
    ≠ Some 2.
Proof.
  intros s. apply closed_tab_stays_out.
  intros [time Hin]. repeat (apply elem_of_cons in Hin as [Hin|Hin]; [done|]).
  by apply elem_of_nil in Hin.
Defined.

(** X12.  Replacing a tab ([chrome.tabs.onReplaced]): the removed tab has
    no entry in the cache afterwards, the added tab is the current and the
    pending one; when the removed tab was the pending one it is not
    credited, however long it dwelled; and when it was the tab at
    [activeIdx] of the jump list, the jump list is dropped. *)
Theorem replaced_tab (s : t) (addedTabId removedTabId currentTime : Z) :
  cache (onReplaced addedTabId removedTabId currentTime s) !! removedTabId
  = None
  ∧ current (onReplaced addedTabId removedTabId currentTime s) = addedTabId
  ∧ lastVisited (onReplaced addedTabId removedTabId currentTime s)
    = Some addedTabId
  ∧ (lastVisited s = Some removedTabId →
       timestamp (onReplaced addedTabId removedTabId currentTime s)
       = timestamp s
       ∧ cache (onReplaced addedTabId removedTabId currentTime s)
         = delete removedTabId (cache s))
  ∧ (anchor s = Some removedTabId →
       jumpList (onReplaced addedTabId removedTabId currentTime s) = None).
Proof.
  unfold onReplaced.
  split; [|split; [done|split; [done|split]]].
  - destruct (register_cache_cases addedTabId currentTime
                (deregister removedTabId s))
      as [(_ & -> & _)|[(_ & -> & _)|(vis & _ & -> & _ & Hvis)]];
      try apply lookup_delete_eq.
    simpl in Hvis. rewrite lookup_insert_ne; [apply lookup_delete_eq|].
    intros ->. by case_bool_decide.
  - intros Hpending.
    destruct (register_skip addedTabId currentTime
                (deregister removedTabId s)) as [-> ->]; [|done].
    unfold dwelled. simpl. by rewrite bool_decide_eq_true_2.
  - intros Hanchor. apply register_incoherent.
    unfold anchor. by rewrite (deregister_anchor removedTabId s Hanchor).
Qed.

Lemma replaced_tab_witness :
  let s := run new [Register 1 0; Register 2 300; Register 3 600;
                    JumpBack; Register 2 700] in
  (timestamp (onReplaced 9 2 5000 s) = timestamp s
   ∧ cache (onReplaced 9 2 5000 s) = delete 2 (cache s))
  ∧ jumpList (onReplaced 9 2 5000 s) = None.
Proof.
  intros s. destruct (replaced_tab s 9 2 5000) as (_ & _ & _ & Hp & Hj).
  split; [apply Hp|apply Hj]; reflexivity.
Defined.

(** X13.  Deregistering is idempotent, and two deregistrations commute. *)
Theorem deregister_idempotent_commute (s : t) (a b : Z) :
  deregister a (deregister a s) = deregister a s
  ∧ deregister a (deregister b s) = deregister b (deregister a s).
Proof.
  split.
  - unfold deregister at 1 3. simpl. f_equal.
    + apply delete_delete_eq.
    + repeat case_bool_decide; done.
    + repeat case_bool_decide; done.
    + destruct (jumpList s) as [jl|]; [|done].
      unfold TabJumpList.deregister. unfold TabJumpList.activeTab.
      repeat (case_bool_decide; simpl); try done.
      do 2 f_equal. apply set_eq. intros x. rewrite !elem_of_union. tauto.
  - unfold deregister. simpl. f_equal.
    + apply delete_delete.
    + repeat case_bool_decide; done.
    + repeat case_bool_decide; done.
    + destruct (jumpList s) as [jl|]; [|done].
      unfold TabJumpList.deregister. unfold TabJumpList.activeTab.
      repeat (case_bool_decide; simpl); try done.
      do 2 f_equal. apply set_eq. intros x. rewrite !elem_of_union. tauto.
Qed.

Lemma trace_snoc s cs c :
  trace s (cs ++ [c]) = trace s cs ++ output (run s cs) c.
Proof.
  revert s. induction cs as [|c' cs IH]; intros s; simpl.
  - by rewrite app_nil_r.
  - by rewrite IH, app_assoc.
Qed.

Lemma elem_of_jumpBackTabs s x :
  x ∈ jumpBackTabs s → x ∈ getTabsByRecency s ∨ x = current s.
Proof.
  unfold jumpBackTabs. cbv zeta. case_decide.
  - rewrite elem_of_app, elem_of_reverse, list_elem_of_singleton. tauto.
  - rewrite elem_of_reverse. tauto.
Qed.

Lemma js_index_elem_of (l : list Z) i id : js_index l i = Some id → id ∈ l.
Proof.
  unfold js_index. case_decide; [|done]. apply list_elem_of_lookup_2.
Qed.

Lemma getJumpBackTabId_in_tabs jl id :
  fst (TabJumpList.getJumpBackTabId jl) = Some id →
  id = -1 ∨ id ∈ TabJumpList.tabs jl.
Proof.
  unfold TabJumpList.getJumpBackTabId. case_decide; simpl.
  - intros [= <-]. by left.
  - intros H'. right. by eapply js_index_elem_of.
Qed.

Lemma getJumpForwardTabId_in_tabs jl id :
  fst (TabJumpList.getJumpForwardTabId jl) = Some id →
  id = -1 ∨ id ∈ TabJumpList.tabs jl.
Proof.
  unfold TabJumpList.getJumpForwardTabId. cbv zeta. case_decide; simpl.
  - intros [= <-]. by left.
  - intros H'. right. by eapply js_index_elem_of.
Qed.

Lemma known_jumpBackList cs s x :
  known cs s → x ∈ TabJumpList.tabs (jumpBackList s) →
  x = -1 ∨ registered cs x.
Proof.
  intros (Hcache & _ & Hcur & Htabs). unfold jumpBackList.
  destruct (jumpList s) as [jl|] eqn:E; [by apply Htabs|].
  simpl. intros Hx. apply elem_of_jumpBackTabs in Hx as [Hx| ->]; [|done].
  right. by apply Hcache, elem_of_getTabsByRecency.
Qed.

Lemma known_new : known [] new.
Proof.
  repeat split; simpl; try done.
  - intros k. rewrite lookup_empty. by intros [? ?].
  - by left.
Qed.

Lemma known_step cs s c : known cs s → known (cs ++ [c]) (step s c).
Proof.
  intros Hk. pose proof Hk as (Hcache & Hpend & Hcur & Htabs).
  assert (∀ x, x = -1 ∨ registered cs x →
               x = -1 ∨ registered (cs ++ [c]) x) as Hmono.
  { intros x [->|Hx]; [by left|right; by apply registered_app]. }
  destruct c as [u currentTime|u| |]; unfold step.
  - repeat split.
    + intros k.
      destruct (register_cache_cases u currentTime s)
        as [(_ & -> & _)|[(_ & -> & _)|(vis & _ & -> & _ & Hvis)]].
      * intros Hs. by apply registered_app, Hcache.
      * intros Hs. by apply registered_app, Hcache.
      * rewrite lookup_insert_is_Some. intros [<-|[_ Hs]].
        -- by apply registered_app, Hpend.
        -- by apply registered_app, Hcache.
    + simpl. intros v [= <-]. exists currentTime.
      apply elem_of_app. right. by left.
    + simpl. right. exists currentTime. apply elem_of_app. right. by left.
    + simpl. intros jl x. destruct (jumpList s) as [jl0|]; [|done].
      case_match; [|done]. intros [= <-] Hx. by apply Hmono, (Htabs jl0).
  - repeat split; simpl.
    + intros k. rewrite lookup_delete_is_Some.
      intros [_ Hs]. by apply registered_app, Hcache.
    + intros v. case_bool_decide; [done|].
      intros Hv. by apply registered_app, Hpend.
    + by apply Hmono.
    + intros jl x. destruct (jumpList s) as [jl0|]; [|done].
      pose proof (deregister_frame u jl0) as (Ht & _).
      destruct (TabJumpList.deregister u jl0) as [[|] jl']; [done|].
      simpl in Ht. intros [= <-] Hx. rewrite Ht in Hx.
      by apply Hmono, (Htabs jl0).
  - rewrite jumpBackTab_eq. repeat split; simpl.
    + intros k Hs. by apply registered_app, Hcache.
    + intros v Hv. by apply registered_app, Hpend.
    + by apply Hmono.
    + intros jl x [= <-] Hx.
      destruct (getJumpBackTabId_frame (jumpBackList s)) as [Ht _].
      rewrite Ht in Hx. by apply Hmono, (known_jumpBackList cs s).
  - destruct (jumpList s) as [jl0|] eqn:E.
    + rewrite (jumpForwardTab_eq s jl0 E). repeat split; simpl.
      * intros k Hs. by apply registered_app, Hcache.
      * intros v Hv. by apply registered_app, Hpend.
      * by apply Hmono.
      * intros jl x [= <-] Hx.
        destruct (getJumpForwardTabId_frame jl0) as [Ht _].
        rewrite Ht in Hx. by apply Hmono, (Htabs jl0).
    + rewrite (jumpForwardTab_none s E). repeat split; simpl.
      * intros k Hs. by apply registered_app, Hcache.
      * intros v Hv. by apply registered_app, Hpend.
      * by apply Hmono.
      * intros jl x. by rewrite E.
Qed.

Lemma known_run cs : known cs (run new cs).
Proof.
  induction cs as [|c cs IH] using rev_ind; [apply known_new|].
  rewrite run_snoc. by apply known_step.
Qed.

Lemma known_output cs s c r :
  known cs s → tracker_inv s → r ∈ output s c →
  ∃ id, r = ChromeTabsGet (Some id) ∧ (id = -1 ∨ registered cs id).
Proof.
  intros Hk Hinv. destruct c as [u currentTime|u| |]; simpl.
  - by intros ?%elem_of_nil.
  - by intros ?%elem_of_nil.
  - rewrite jumpBackTab_selects. intros ->%list_elem_of_singleton.
    unfold jumpBackTarget.
    destruct (getJumpBackTabId_defined (jumpBackList s)) as [id Hid];
      [by apply jl_wf_jumpBackList|].
    exists id. split; [by rewrite Hid|].
    apply getJumpBackTabId_in_tabs in Hid as [->|Hin]; [by left|].
    by apply (known_jumpBackList cs s).
  - rewrite jumpForwardTab_selects. intros ->%list_elem_of_singleton.
    unfold jumpForwardTarget.
    destruct (jumpList s) as [jl|] eqn:E; [|exists (-1); by split; [|left]].
    destruct (getJumpForwardTabId_defined jl) as [id Hid];
      [by apply (inv_jumpList s Hinv)|].
    exists id. split; [by rewrite Hid|].
    apply getJumpForwardTabId_in_tabs in Hid as [->|Hin]; [by left|].
    destruct Hk as (_ & _ & _ & Htabs). by apply (Htabs jl).
Qed.

(** X14.  The singleton only knows the tabs it was told about: after any
    sequence of calls from the initial state, every tab of the ranking was
    registered by a call of the sequence, and every request sent to the
    browser names a number, never [undefined], which is [-1] or a tab
    registered by a call of the sequence. *)
Theorem only_registered_tabs (cs : list call) :
  (∀ x, x ∈ getTabsByRecency (run new cs) → registered cs x)
  ∧ (∀ r, r ∈ trace new cs →
          ∃ id, r = ChromeTabsGet (Some id) ∧ (id = -1 ∨ registered cs id)).
Proof.
  split.
  - intros x Hx. destruct (known_run cs) as (Hcache & _).
    by apply Hcache, elem_of_getTabsByRecency.
  - induction cs as [|c cs IH] using rev_ind; [by intros r ?%elem_of_nil|].
    intros r. rewrite trace_snoc, elem_of_app. intros [Hr|Hr].
    + destruct (IH r Hr) as (id & -> & Hid). exists id. split; [done|].
      destruct Hid as [->|Hid]; [by left|right; by apply registered_app].
    + destruct (known_output cs (run new cs) c r) as (id & -> & Hid);
        [apply known_run|apply reachable_inv; by exists cs|done|].
      exists id. split; [done|].
      destruct Hid as [->|Hid]; [by left|right; by apply registered_app].
Qed.

Lemma only_registered_tabs_witness :
  let cs := [Register 1 0; Register 2 300; Register 3 600; JumpBack] in
  registered cs 2
  ∧ ∃ id, ChromeTabsGet (Some 2) = ChromeTabsGet (Some id)
          ∧ (id = -1 ∨ registered cs id).
Proof.
  intros cs. destruct (only_registered_tabs cs) as [Hranking Htrace]. split.
  - apply Hranking.
    replace (getTabsByRecency (run new cs)) with [2; 1] by reflexivity.
    by left.
  - apply Htrace.
    replace (trace new cs) with [ChromeTabsGet (Some 2)] by reflexivity.
    by left.
Defined.

(** X15.  Deregistering a tab the singleton does not hold (no entry in the
    cache, not pending, not at [activeIdx] of the jump list) changes
    nothing but the tombstones of a live jump list, which get the tab; with
    no jump list the state is unchanged. *)
Theorem deregister_unknown (s : t) (tabId : Z) :
  cache s !! tabId = None →
  lastVisited s ≠ Some tabId →
  anchor s ≠ Some tabId →
  deregister tabId s
  = {| timestamp := timestamp s; current := current s; cache := cache s;
       lastVisited := lastVisited s; lastVisitedTime := lastVisitedTime s;
       jumpList :=
         match jumpList s with
         | Some jl =>
             Some {| TabJumpList.tabs := TabJumpList.tabs jl;
                     TabJumpList.activeIdx := TabJumpList.activeIdx jl;
                     TabJumpList.deletedTabs :=
                       {[ tabId ]} ∪ TabJumpList.deletedTabs jl |}
         | None => None
         end |}
  ∧ (jumpList s = None → deregister tabId s = s)
  ∧ getTabsByRecency (deregister tabId s) = getTabsByRecency s.
Proof.
  intros Hcache Hpending Hanchor.
  assert (deregister tabId s
          = {| timestamp := timestamp s; current := current s;
               cache := cache s; lastVisited := lastVisited s;
               lastVisitedTime := lastVisitedTime s;
               jumpList :=
                 match jumpList s with
                 | Some jl =>
                     Some {| TabJumpList.tabs := TabJumpList.tabs jl;
                             TabJumpList.activeIdx := TabJumpList.activeIdx jl;
                             TabJumpList.deletedTabs :=
                               {[ tabId ]} ∪ TabJumpList.deletedTabs jl |}
                 | None => None
                 end |}) as Heq.
  { unfold deregister. rewrite bool_decide_eq_false_2 by done.
    rewrite delete_id by done. f_equal.
    unfold anchor in Hanchor. destruct (jumpList s) as [jl|]; [|done].
    unfold TabJumpList.deregister. by rewrite bool_decide_eq_false_2. }
  split; [exact Heq|]. split.
  - intros Hnone. rewrite Heq, Hnone. by destruct s; simpl in *; subst.
  - by rewrite Heq.
Qed.

Lemma deregister_unknown_witness :
  let s := run new [Register 1 0; Register 2 300] in
  deregister 7 s = s
  ∧ getTabsByRecency (deregister 7 s) = getTabsByRecency s.
Proof.
  intros s.
  destruct (deregister_unknown s 7) as (_ & Hsame & Hranking);
    [reflexivity|vm_compute; congruence|vm_compute; congruence|].
  split; [by apply Hsame|exact Hranking].
Defined.

Lemma rapid_run visits : ∀ s,
  rapid (lastVisitedTime s) visits →
  timestamp (run s (registrations visits)) = timestamp s
  ∧ cache (run s (registrations visits)) = cache s.
Proof.
  induction visits as [|[tabId currentTime] visits IH]; intros s Hrapid;
    [done|].
  simpl in Hrapid. destruct Hrapid as [Hgap Hrest].
  change (run s (registrations ((tabId, currentTime) :: visits)))
    with (run (register tabId currentTime s) (registrations visits)).
  destruct (IH (register tabId currentTime s) Hrest) as [-> ->].
  apply register_skip. unfold dwelled.
  destruct (lastVisitedTime s) as [t0|]; [|done].
  apply bool_decide_eq_false. lia.
Qed.

(** X16.  Tabs passed through quickly are not credited: along a sequence of
    activations each less than [TIME_DELTA] ms after the one before, the
    clock, the cache and the ranking stay as they were, whatever the tabs
    and however long the sequence. *)
Theorem rapid_visits_uncredited (s : t) (visits : list (Z * Z)) :
  rapid (lastVisitedTime s) visits →
  timestamp (run s (registrations visits)) = timestamp s
  ∧ cache (run s (registrations visits)) = cache s
  ∧ getTabsByRecency (run s (registrations visits)) = getTabsByRecency s.
Proof.
  intros Hrapid. destruct (rapid_run visits s Hrapid) as [Ht Hc].
  split; [done|]. split; [done|].
  unfold getTabsByRecency, cacheAt. by rewrite Hc.
Qed.

Lemma rapid_visits_uncredited_witness :
  let s := run new [Register 1 0; Register 2 300] in
  let visits := [(3, 500); (4, 700); (3, 900); (5, 1100)] in
  timestamp (run s (registrations visits)) = timestamp s
  ∧ cache (run s (registrations visits)) = cache s
  ∧ getTabsByRecency (run s (registrations visits)) = getTabsByRecency s.
Proof.
  intros s visits. apply (rapid_visits_uncredited s visits).
  simpl. unfold TIME_DELTA. lia.
Defined.

End TrackerBehaviour.

(** * The shortcut helpers *)

Section ShortcutHelpers.

Example joinKeys_example :
  joinKeys ["ctrl"; "alt"]%string "K" = "ctrl+alt+K"%string.
Proof. reflexivity. Qed.

Example js_split_example :
  js_split "+" "ctrl+alt+K" = ["ctrl"; "alt"; "K"]%string
  ∧ js_split "+" "" = [""]%string
  ∧ js_split "+" "ctrl++" = ["ctrl"; ""; ""]%string.
Proof. repeat split. Qed.

Lemma js_split_plus_free s : plus_free s → js_split "+" s = [s].
Proof.
  unfold plus_free. induction s as [|c s IH]; simpl; [done|].
  intros [Hc Hs]%orb_false_elim. rewrite Hc. by rewrite IH.
Qed.

Lemma js_split_app a rest :
  plus_free a →
  js_split "+" (a +:+ String "+" rest) = a :: js_split "+" rest.
Proof.
  unfold plus_free. induction a as [|c a IH]; simpl; [done|].
  intros [Hc Ha]%orb_false_elim. rewrite Hc. by rewrite IH.
Qed.

Lemma joinKeys_cons m mods k :
  joinKeys (m :: mods) k = m +:+ String "+" (joinKeys mods k).
Proof. unfold joinKeys, js_join. simpl. by destruct mods. Qed.

(** Splitting what [joinKeys] joined gives the keys back. *)
Lemma js_split_joinKeys mods k :
  Forall plus_free mods → plus_free k →
  js_split "+" (joinKeys mods k) = mods ++ [k].
Proof.
  intros Hmods Hk. induction Hmods as [|m mods Hm Hmods IH].
  - by apply js_split_plus_free.
  - rewrite joinKeys_cons, js_split_app by done. by rewrite IH.
Qed.

(** X17.  [createShiftedShortcut] keeps the first key and the last and puts
    ["shift"] between them: for a shortcut made of modifiers and a base
    key joined with ["+"], the result is the first modifier (the base key
    itself when there is no modifier), ["shift"] and the base key; the
    other modifiers are dropped. *)
Theorem createShiftedShortcut_joined (shortcuts : list Command.t)
    (shortcutID : string) (mods : list string) (k : string) :
  findShortcut shortcuts shortcutID = Some (joinKeys mods k) →
  Forall plus_free mods →
  plus_free k →
  k ≠ ""%string →
  createShiftedShortcut shortcuts shortcutID
  = Some (default k (head mods) +:+ "+shift+" +:+ k).
Proof.
  intros Hfind Hmods Hk Hne. unfold createShiftedShortcut.
  rewrite Hfind. cbv zeta. rewrite js_split_joinKeys by done.
  rewrite last_snoc. cbn [default]. rewrite decide_False by done.
  by destruct mods.
Qed.

Lemma createShiftedShortcut_joined_witness :
  let shortcuts :=
    [Command.mk "1-previous-tab" (Some "alt+A"%string);
     Command.mk "010-open-popup-window" (Some "ctrl+alt+K"%string)] in
  createShiftedShortcut shortcuts "010-open-popup-window"
  = Some ("ctrl+shift+K"%string).
Proof.
  intros shortcuts.
  apply (createShiftedShortcut_joined shortcuts "010-open-popup-window"
           ["ctrl"; "alt"]%string "K").
  - reflexivity.
  - repeat constructor.
  - reflexivity.
  - discriminate.
Defined.

Lemma js_split_trailing_plus pre :
  ∃ seg segs, js_split "+" (pre +:+ "+") = (seg :: segs) ++ [""%string].
Proof.
  induction pre as [|c pre (seg & segs & IH)]; simpl.
  - by exists ""%string, [].
  - rewrite IH. destruct (Ascii.eqb c "+").
    + by exists ""%string, (seg :: segs).
    + by exists (String c seg), segs.
Qed.

(** X18.  Shortcuts that are not there.  When no entry has the id,
    [findShortcut] and [createShiftedShortcut] throw; when the first entry
    with the id has no shortcut, or the empty one, both return the empty
    string; and [createShiftedShortcut] returns the empty string as well
    for a shortcut that ends with ["+"]. *)
Theorem createShiftedShortcut_unassigned (shortcuts : list Command.t)
    (shortcutID : string) :
  (Forall (λ c, Command.id c ≠ shortcutID) shortcuts →
     findShortcut shortcuts shortcutID = None
     ∧ createShiftedShortcut shortcuts shortcutID = None)
  ∧ (∀ before c after,
       shortcuts = before ++ c :: after →
       Forall (λ c', Command.id c' ≠ shortcutID) before →
       Command.id c = shortcutID →
       Command.shortcut c = None ∨ Command.shortcut c = Some ""%string →
       findShortcut shortcuts shortcutID = Some ""%string
       ∧ createShiftedShortcut shortcuts shortcutID = Some ""%string)
  ∧ (∀ pre,
       findShortcut shortcuts shortcutID = Some (pre +:+ "+") →
       createShiftedShortcut shortcuts shortcutID = Some ""%string).
Proof.
  split; [|split].
  - intros Hnone.
    assert (findShortcut shortcuts shortcutID = None) as Hfind.
    { unfold findShortcut.
      induction Hnone as [|c l Hc Hl IH]; simpl; [done|].
      by rewrite bool_decide_eq_false_2. }
    split; [done|]. unfold createShiftedShortcut. by rewrite Hfind.
  - intros before c after -> Hbefore Hid Hsc.
    assert (findShortcut (before ++ c :: after) shortcutID = Some ""%string)
      as Hfind.
    { unfold findShortcut.
      induction Hbefore as [|c' l Hc' Hl IH]; simpl.
      - rewrite bool_decide_eq_true_2 by done. by destruct Hsc as [-> | ->].
      - by rewrite bool_decide_eq_false_2. }
    split; [done|]. unfold createShiftedShortcut. by rewrite Hfind.
  - intros pre Hfind. unfold createShiftedShortcut. rewrite Hfind. cbv zeta.
    destruct (js_split_trailing_plus pre) as (seg & segs & ->).
    rewrite last_snoc. cbn [default]. by rewrite decide_True.
Qed.

Lemma createShiftedShortcut_unassigned_witness :
  let shortcuts :=
    [Command.mk "1-previous-tab" (Some "alt+A"%string);
     Command.mk "2-next-tab" None;
     Command.mk "020-focus-search" (Some "ctrl+"%string)] in
  createShiftedShortcut shortcuts "010-open-popup-window" = None
  ∧ createShiftedShortcut shortcuts "2-next-tab" = Some ""%string
  ∧ createShiftedShortcut shortcuts "020-focus-search" = Some ""%string.
Proof.
  intros shortcuts. split; [|split].
  - destruct (createShiftedShortcut_unassigned shortcuts
                "010-open-popup-window") as ([_ H] & _).
    + repeat constructor; discriminate.
    + exact H.
  - destruct (createShiftedShortcut_unassigned shortcuts "2-next-tab")
      as (_ & H & _).
    apply (H [Command.mk "1-previous-tab" (Some "alt+A"%string)]
             (Command.mk "2-next-tab" None)
             [Command.mk "020-focus-search" (Some "ctrl+"%string)]).
    + reflexivity.
    + repeat constructor; discriminate.
    + reflexivity.
    + by left.
  - destruct (createShiftedShortcut_unassigned shortcuts "020-focus-search")
      as (_ & _ & H).
    apply (H "ctrl"%string). reflexivity.
Defined.

End ShortcutHelpers.

(** * The default data of the storage *)

Section DefaultData.
Context {props : Type}.

(** X19.  The default data is consistent and holds at most the active
    tab: whatever the query returns, [tabIDs] lists exactly the keys of
    [tabsByID], without repetition; every tab of [tabsByID] is stored under
    its own id and stamped with the instant of the call; only the first tab
    of the query result is kept. *)
Theorem defaultData_consistent (tabs : option (list (tab props))) (now : Z) :
  (∀ id, id ∈ tabIDs (defaultData tabs now)
         ↔ is_Some (tabsByID (defaultData tabs now) !! id))
  ∧ (∀ id t, tabsByID (defaultData tabs now) !! id = Some t →
             tab_id t = id ∧ tab_lastVisit t = Some now
             ∧ ∃ t0 rest, tabs = Some (t0 :: rest)
                          ∧ tab_id t0 = id ∧ tab_props t = tab_props t0)
  ∧ NoDup (tabIDs (defaultData tabs now))
  ∧ (length (tabIDs (defaultData tabs now)) ≤ 1)%nat
  ∧ previousTabIndex (defaultData tabs now) = -1.
Proof.
  destruct tabs as [[|t0 rest]|]; simpl.
  - repeat split; try (intros id; rewrite lookup_empty); try done.
    + by intros ?%elem_of_nil.
    + by intros [? ?].
    + constructor.
    + lia.
  - repeat split.
    + rewrite list_elem_of_singleton. intros ->.
      rewrite lookup_insert_eq. eauto.
    + rewrite list_elem_of_singleton, lookup_insert_is_Some, lookup_empty.
      intros [->|[_ [? ?]]]; done.
    + apply lookup_insert_Some in H as [[<- <-]|[_ H]]; [done|].
      by rewrite lookup_empty in H.
    + apply lookup_insert_Some in H as [[<- <-]|[_ H]]; [done|].
      by rewrite lookup_empty in H.
    + apply lookup_insert_Some in H as [[<- <-]|[_ H]]; [eauto|].
      by rewrite lookup_empty in H.
    + apply NoDup_singleton.
    + lia.
  - repeat split; try (intros id; rewrite lookup_empty); try done.
    + by intros ?%elem_of_nil.
    + by intros [? ?].
    + constructor.
    + lia.
Qed.

End DefaultData.

Lemma defaultData_consistent_witness :
  let tabs := Some [mkTab 12 None "a"%string; mkTab 13 (Some 5) "b"%string] in
  tab_id (mkTab 12 (Some 1000) "a"%string) = 12
  ∧ tab_lastVisit (mkTab 12 (Some 1000) "a"%string) = Some 1000
  ∧ ∃ t0 rest, tabs = Some (t0 :: rest) ∧ tab_id t0 = 12
               ∧ tab_props (mkTab 12 (Some 1000) "a"%string) = tab_props t0.
Proof.
  intros tabs.
  destruct (defaultData_consistent tabs 1000) as (_ & Hstored & _).
  apply (Hstored 12 (mkTab 12 (Some 1000) "a"%string)). reflexivity.
Defined.
